(** * Room scripting engine: value codec, rate limiter, dispatch, virtual DOM

    A shallow embedding of the room-scripting core of the multiplayer
    server (rpc-types: [RpcTypes], [RpcArguments]; rpc: [GlobalRateLimiter],
    [PerUserRateLimiter], [VMGlobal.run], [RpcHandler.invoke],
    [RpcHandler.readArgsToString]; dom: [VMElement.from],
    [VMElement.appendChild], [VMDocument.getElementById]; client-minimal:
    [MinimalClient.updateState]) and the properties of its specification. *)

From Stdlib Require Import ZArith String Ascii List Lia Bool DecimalString.
From stdpp Require Import gmap strings list.

Set Warnings "-register-all".

(** ** JavaScript values *)

(** Numbers.  The engine never does arithmetic on the numbers it
    transports: it tests them for truthiness, compares them with [===] and
    prints them.  [Fin z] stands for a finite number, one the language
    prints in plain decimal; [NaN] for the one number that is falsy without
    being zero and differs from itself under [===]. *)
Inductive jsnum := NaN | Fin (z : Z).

(** Objects are either plain ([{}] literals, [JSON.parse] results) or
    instances of some class other than [Vector3] and [Array]. *)
Inductive objkind := Plain | Instance (cls : string).

(** Values.  [JObj k props] lists the own enumerable properties in the order
    [Object.keys] gives them; [JFun] is an opaque function value.  Values
    are finite trees: an object graph that reaches itself is no value of
    the model, and what the code does on one is not stated here. *)
Inductive jsval :=
| JUndefined
| JNull
| JBool (b : bool)
| JNum (n : jsnum)
| JStr (s : string)
| JFun (name : string)
| JVec3 (x y z : jsval)
| JArr (elems : list jsval)
| JObj (kind : objkind) (props : list (string * jsval)).

(** Induction over values that reaches inside arrays and objects. *)
Section jsval_induction.
Variable P : jsval → Prop.
Hypothesis Hundef : P JUndefined.
Hypothesis Hnull : P JNull.
Hypothesis Hbool : ∀ b, P (JBool b).
Hypothesis Hnum : ∀ n, P (JNum n).
Hypothesis Hstr : ∀ s, P (JStr s).
Hypothesis Hfun : ∀ f, P (JFun f).
Hypothesis Hvec : ∀ x y z, P x → P y → P z → P (JVec3 x y z).
Hypothesis Harr : ∀ l, Forall P l → P (JArr l).
Hypothesis Hobj : ∀ k props, Forall (λ p, P p.2) props → P (JObj k props).

Fixpoint jsval_nested_ind (v : jsval) : P v :=
  match v with
  | JUndefined => Hundef
  | JNull => Hnull
  | JBool b => Hbool b
  | JNum n => Hnum n
  | JStr s => Hstr s
  | JFun f => Hfun f
  | JVec3 x y z =>
      Hvec x y z (jsval_nested_ind x) (jsval_nested_ind y) (jsval_nested_ind z)
  | JArr l =>
      Harr l ((fix all (l : list jsval) : Forall P l :=
                 match l with
                 | [] => Forall_nil_2 P
                 | a :: l' => Forall_cons_2 P a l' (jsval_nested_ind a) (all l')
                 end) l)
  | JObj k props =>
      Hobj k props
        ((fix all (ps : list (string * jsval)) : Forall (λ p, P p.2) ps :=
            match ps with
            | [] => Forall_nil_2 _
            | p :: ps' =>
                Forall_cons_2 (λ p, P p.2) p ps' (jsval_nested_ind p.2) (all ps')
            end) props)
  end.
End jsval_induction.

(** [!v] is [negb (truthy v)]. *)
Definition truthy (v : jsval) : bool :=
  match v with
  | JUndefined | JNull => false
  | JBool b => b
  | JNum NaN => false
  | JNum (Fin z) => negb (z =? 0)%Z
  | JStr s => negb (String.eqb s "")
  | JFun _ | JVec3 _ _ _ | JArr _ | JObj _ _ => true
  end.

(** [l[i]]: reading past the end of an array gives [undefined]. *)
Definition idx (l : list jsval) (i : nat) : jsval := default JUndefined (l !! i).

(** ** Exceptions *)

(** [NoWayToSerialize obj] is [Error("No way to serialize " + obj)],
    [UnableToRead t] is [Error("Unable to read " + t)] and
    [AlreadyHasParent child] is [Error(child + ' already has a parent!')];
    each carries the value its message names.  [TypeError] is the
    language's own.  [Unmodelled] is not a JavaScript exception: it marks an
    input on which the embedding leaves the behaviour undefined (the string
    conversion of a composite value used as a property key). *)
Inductive jserror :=
| NoWayToSerialize (obj : jsval)
| UnableToRead (typeName : jsval)
| AlreadyHasParent (child : nat)
| TypeError (msg : string)
| Unmodelled (what : string).

Inductive outcome (A : Type) :=
| Ok (a : A)
| Throw (e : jserror).
Arguments Ok {A} a.
Arguments Throw {A} e.

Definition obind {A B} (m : outcome A) (k : A → outcome B) : outcome B :=
  match m with
  | Ok a => k a
  | Throw e => Throw e
  end.

Notation "x ←! m ; k" := (obind m (λ x, k))
  (at level 100, m at next level, right associativity).

(** [l.map(f)] for a callback that may throw: left to right, first throw wins. *)
Fixpoint omapM {A B} (f : A → outcome B) (l : list A) : outcome (list B) :=
  match l with
  | [] => Ok []
  | a :: l' => x ←! f a; xs ←! omapM f l'; Ok (x :: xs)
  end.

(** The same over the values of a property list. *)
Fixpoint omapM_snd {K A B} (f : A → outcome B) (l : list (K * A)) : outcome (list B) :=
  match l with
  | [] => Ok []
  | p :: l' => x ←! f p.2; xs ←! omapM_snd f l'; Ok (x :: xs)
  end.

(** ** The value codec (rpc-types) *)

Module Codec.

(** [RpcTypes.nameFor].  The function falls off its end for a truthy value
    that is no object, which yields [undefined]. *)
Definition nameFor (obj : jsval) : jsval :=
  if negb (truthy obj) then JNull
  else match obj with
       | JVec3 _ _ _ => JStr "v3"
       | JArr _ => JStr "a"
       | JObj _ _ => JStr "o"
       | _ => JUndefined
       end.

(** What [RpcArguments.serialize] returns once its elements are serialized:
    [null] for no element, the array of the serialized elements otherwise. *)
Definition args_payload (ws : list jsval) : jsval :=
  match ws with
  | [] => JNull
  | _ => JArr ws
  end.

(** [RpcTypes.serialize].  The [switch] on [typeName] is written as a match
    on the shape of [obj], which [nameFor] has just mapped to the tag; the
    last branch is the [default] of the switch.  The keys of an object are
    strings, which [RpcTypes.serialize] returns as they are: their payload
    is written without the call.  [RpcTypes_serialize_eq] below gives the
    function the shape of the source. *)
Fixpoint RpcTypes_serialize (obj : jsval) : outcome jsval :=
  let typeName := nameFor obj in
  if negb (truthy typeName) then Ok obj
  else match obj with
       | JArr l =>
           ws ←! omapM RpcTypes_serialize l;
           Ok (JArr [typeName; args_payload ws])
       | JObj _ props =>
           vs ←! omapM_snd RpcTypes_serialize props;
           Ok (JArr [typeName; args_payload (JStr <$> props.*1); args_payload vs])
       | JVec3 x y z =>
           ws ←! omapM RpcTypes_serialize [x; y; z];
           Ok (JArr [typeName; args_payload ws])
       | _ => Throw (NoWayToSerialize obj)
       end.

(** [RpcArguments.serialize], applied to its [arguments] list: one argument
    that is an array is the argument list itself, anything else is taken
    positionally. *)
Definition RpcArguments_serialize (arguments : list jsval) : outcome jsval :=
  let args := match arguments with
              | [JArr l] => l
              | _ => arguments
              end in
  if decide (length args = 0) then Ok JNull
  else ws ←! omapM RpcTypes_serialize args; Ok (JArr ws).

(** [new Vector3(x, y, z)]: a parameter that is [undefined] takes its
    default, 0. *)
Definition Vector3_new (x y z : jsval) : jsval :=
  let dflt v := match v with JUndefined => JNum (Fin 0) | _ => v end in
  JVec3 (dflt x) (dflt y) (dflt z).

(** The string a value becomes when used as a property key, for the values
    whose conversion is modelled: strings, [undefined], [null], booleans and
    the numbers printed in plain decimal. *)
Definition ToPropertyKey (key : jsval) : outcome string :=
  match key with
  | JStr s => Ok s
  | JUndefined => Ok "undefined"
  | JNull => Ok "null"
  | JBool true => Ok "true"
  | JBool false => Ok "false"
  | JNum NaN => Ok "NaN"
  | JNum (Fin z) =>
      if decide (Z.abs z < 10 ^ 21)%Z then Ok (NilZero.string_of_int (Z.to_int z))
      else Throw (Unmodelled "number key in exponent notation")
  | _ => Throw (Unmodelled "composite value as property key")
  end.

(** [obj[key] = val] on a plain object: an existing property keeps its
    place, a new one goes last; assigning to ["__proto__"] creates no own
    property.  (Last is where [Object.keys] lists a new key that is not
    integer-like; see [Wire.ordinary_keys].) *)
Fixpoint set_existing (key : string) (val : jsval) (props : list (string * jsval))
  : option (list (string * jsval)) :=
  match props with
  | [] => None
  | (k, v) :: props' =>
      if String.eqb k key then Some ((k, val) :: props')
      else cons (k, v) <$> set_existing key val props'
  end.

Definition set_prop (key : string) (val : jsval) (props : list (string * jsval))
  : list (string * jsval) :=
  if String.eqb key "__proto__" then props
  else default (props ++ [(key, val)]) (set_existing key val props).

(** [keys.reduce((obj, key, index) => { obj[key] = vals[index]; return obj; }, obj)],
    started at position [index]. *)
Fixpoint obj_reduce (keys vals : list jsval) (index : nat) (obj : list (string * jsval))
  : outcome (list (string * jsval)) :=
  match keys with
  | [] => Ok obj
  | key :: keys' =>
      k ←! ToPropertyKey key;
      obj_reduce keys' vals (S index) (set_prop k (idx vals index) obj)
  end.

(** [typeName === t] for a tag [t]. *)
Definition is_tag (typeName : jsval) (t : string) : bool :=
  match typeName with
  | JStr s => String.eqb s t
  | _ => false
  end.

(** The callback [rawArg => ...] of [RpcArguments.read], with the calls to
    [RpcTypes.read] and back to [RpcArguments.read] unfolded in place so that
    the recursion is structural; [RpcArguments_read], [RpcTypes_read] and
    [read_rawArg_eq] below give it the shape of the source.  [rawArg.shift()]
    also shortens the array inside the caller's wire value; the embedding
    reads a wire value once and does not track that. *)
Fixpoint read_rawArg (rawArg : jsval) : outcome jsval :=
  match rawArg with
  | JArr l =>
      let args_read (serializedArgs : jsval) : outcome (list jsval) :=
        if negb (truthy serializedArgs) then Ok []
        else match serializedArgs with
             | JArr es => omapM read_rawArg es
             | _ => Throw (TypeError "serializedArgs.map is not a function")
             end in
      match l with
      | [] => Throw (UnableToRead JUndefined)
      | typeName :: serialized =>
          if is_tag typeName "a" then
            match serialized with
            | [] => Ok (JArr [])
            | s0 :: _ => vs ←! args_read s0; Ok (JArr vs)
            end
          else if is_tag typeName "o" then
            match serialized with
            | [] => Ok (JObj Plain [])
            | s0 :: rest =>
                keys ←! args_read s0;
                vals ←! match rest with
                        | [] => Ok []
                        | s1 :: _ => args_read s1
                        end;
                props ←! obj_reduce keys vals 0 [];
                Ok (JObj Plain props)
            end
          else if is_tag typeName "v3" then
            match serialized with
            | [] => Ok (Vector3_new JUndefined JUndefined JUndefined)
            | s0 :: _ =>
                vector ←! args_read s0;
                Ok (Vector3_new (idx vector 0) (idx vector 1) (idx vector 2))
            end
          else Throw (UnableToRead typeName)
      end
  | _ => Ok rawArg
  end.

(** [RpcArguments.read]. *)
Definition RpcArguments_read (serializedArgs : jsval) : outcome (list jsval) :=
  if negb (truthy serializedArgs) then Ok []
  else match serializedArgs with
       | JArr l => omapM read_rawArg l
       | _ => Throw (TypeError "serializedArgs.map is not a function")
       end.

(** [RpcTypes.read]; [serialized] is the wire array with the tag removed. *)
Definition RpcTypes_read (typeName : jsval) (serialized : list jsval) : outcome jsval :=
  if is_tag typeName "a" then
    vs ←! RpcArguments_read (idx serialized 0); Ok (JArr vs)
  else if is_tag typeName "o" then
    keys ←! RpcArguments_read (idx serialized 0);
    vals ←! RpcArguments_read (idx serialized 1);
    props ←! obj_reduce keys vals 0 [];
    Ok (JObj Plain props)
  else if is_tag typeName "v3" then
    vector ←! RpcArguments_read (idx serialized 0);
    Ok (Vector3_new (idx vector 0) (idx vector 1) (idx vector 2))
  else Throw (UnableToRead typeName).

Definition defined (v : jsval) : bool :=
  match v with
  | JUndefined => false
  | _ => true
  end.

(** The values the codec represents: primitives, [null] and [undefined],
    vectors as the [Vector3] constructor builds them (no component is
    [undefined]), arrays, and plain objects whose keys are pairwise distinct
    own properties (so none is ["__proto__"]), nested at will.  Functions
    and instances of other classes are not. *)

Fixpoint representable (v : jsval) : bool :=
  match v with
  | JUndefined | JNull | JBool _ | JNum _ | JStr _ => true
  | JFun _ => false
  | JVec3 x y z =>
      defined x && defined y && defined z
      && representable x && representable y && representable z
  | JArr l => forallb representable l
  | JObj Plain props =>
      bool_decide (NoDup props.*1)
      && forallb (λ p, negb (String.eqb p.1 "__proto__")) props
      && forallb (λ p, representable p.2) props
  | JObj (Instance _) _ => false
  end.

(** Round trip of one value through the element serializer and the
    decoder's callback. *)
Definition roundtrips (v : jsval) : Prop :=
  representable v = true →
  ∃ w, RpcTypes_serialize v = Ok w ∧ read_rawArg w = Ok v.

(** [Object.keys(obj)] and [obj[key]] on the objects the serializer opens:
    the own properties of an object, the three fields of a vector. *)
Definition Object_keys (obj : jsval) : list string :=
  match obj with
  | JObj _ props => props.*1
  | _ => []
  end.

Fixpoint lookup_prop (key : string) (props : list (string * jsval)) : jsval :=
  match props with
  | [] => JUndefined
  | (k, v) :: props' => if String.eqb k key then v else lookup_prop key props'
  end.

Definition get_prop (obj : jsval) (key : string) : jsval :=
  match obj with
  | JObj _ props => lookup_prop key props
  | JVec3 x y z =>
      if String.eqb key "x" then x
      else if String.eqb key "y" then y
      else if String.eqb key "z" then z
      else JUndefined
  | _ => JUndefined
  end.

(** The own keys of an object are pairwise distinct. *)
Definition distinct_keys (obj : jsval) : Prop :=
  match obj with
  | JObj _ props => NoDup props.*1
  | _ => True
  end.

End Codec.

(** ** Plain objects used as maps *)

Module PlainObject.

(** The registries, the [clients] of a limiter and the [states] of a room
    are plain objects indexed by a name.  Read as the finite map of their
    own properties they answer for every name that is none of the
    properties a plain object inherits from [Object.prototype]: an inherited
    name that is no own property reads as the inherited value, and an
    assignment to ["__proto__"] stores no own property. *)
Definition inherited_names : list string :=
  ["constructor"; "__defineGetter__"; "__defineSetter__"; "hasOwnProperty";
   "__lookupGetter__"; "__lookupSetter__"; "isPrototypeOf";
   "propertyIsEnumerable"; "toString"; "valueOf"; "__proto__";
   "toLocaleString"].

Definition inherited_name (k : string) : bool :=
  existsb (String.eqb k) inherited_names.

End PlainObject.

(** ** Rate limiting (rpc) *)

Module Limiter.

(** The configuration [_buildConfig] produces; the defaults are those of the
    source. *)
Record rpcConfig := { maxRate : Z; unreliable : bool }.

Definition default_config : rpcConfig := {| maxRate := 5; unreliable := false |}.

(** A [GlobalRateLimiter].  [last] is [None] until the first call sets it;
    [calls] is read only after the same branch has set it to 1, and its unset
    value is written 0. *)
Record GlobalRateLimiter := {
  config : rpcConfig;
  last : option Z;
  calls : Z;
}.

Definition GlobalRateLimiter_new (cfg : rpcConfig) : GlobalRateLimiter :=
  {| config := cfg; last := None; calls := 0 |}.

(** [!this.last || now - this.last > 1000]: an unset [last] and a [last] of 0
    are both falsy. *)
Definition fresh_window (now : Z) (l : GlobalRateLimiter) : bool :=
  match last l with
  | None => true
  | Some t => (t =? 0)%Z || (now - t >? 1000)%Z
  end.

(** [GlobalRateLimiter.allows], with the value of [Date.now()] as [now]. *)
Definition allows (now : Z) (l : GlobalRateLimiter) : bool * GlobalRateLimiter :=
  if fresh_window now l then
    (true, {| config := config l; last := Some now; calls := 1 |})
  else
    let calls' := (calls l + 1)%Z in
    let l' := {| config := config l; last := last l; calls := calls' |} in
    if (calls' >? maxRate (config l))%Z then (false, l') else (true, l').

(** A run of calls on one limiter, at the given clock readings. *)
Fixpoint allows_all (nows : list Z) (l : GlobalRateLimiter)
  : list bool * GlobalRateLimiter :=
  match nows with
  | [] => ([], l)
  | now :: nows' =>
      let '(b, l1) := allows now l in
      let '(bs, l2) := allows_all nows' l1 in
      (b :: bs, l2)
  end.

(** A [PerUserRateLimiter]: one [GlobalRateLimiter] per sender uuid, made on
    first use. *)
Record PerUserRateLimiter := {
  user_config : rpcConfig;
  clients : gmap string GlobalRateLimiter;
}.

Definition PerUserRateLimiter_new (cfg : rpcConfig) : PerUserRateLimiter :=
  {| user_config := cfg; clients := ∅ |}.

(** [PerUserRateLimiter.allows], for a sender whose uuid is no inherited
    name ([PlainObject.inherited_name]): [this.clients] is read as the map of
    its own properties.  Under an inherited uuid that has no entry the
    source finds a value without [allows] and raises. *)
Definition user_allows (now : Z) (uuid : string) (p : PerUserRateLimiter)
  : bool * PerUserRateLimiter :=
  let userLimiter := default (GlobalRateLimiter_new (user_config p)) (clients p !! uuid) in
  let '(b, l') := allows now userLimiter in
  (b, {| user_config := user_config p; clients := <[uuid := l']> (clients p) |}).

End Limiter.

(** ** Strings the engine builds *)

Module Text.

Fixpoint drop_chars (n : nat) (s : string) : string :=
  match n, s with
  | S n', String _ s' => drop_chars n' s'
  | _, _ => s
  end.

(** [s.replace(pat, rep)] for a string pattern and a replacement without
    [$]: the first occurrence of [pat], if any, is replaced. *)
Fixpoint replace_first (pat rep s : string) : string :=
  if String.prefix pat s then rep +:+ drop_chars (String.length pat) s
  else match s with
       | EmptyString => EmptyString
       | String c s' => String c (replace_first pat rep s')
       end.

(** [parts.join(sep)]; an element that is [undefined] counts as empty. *)
Fixpoint join (sep : string) (parts : list (option string)) : string :=
  match parts with
  | [] => ""
  | [p] => default "" p
  | p :: parts' => default "" p +:+ sep +:+ join sep parts'
  end.

Definition quote : string := "'".
Definition backslash_quote : string := String "\" "'".
Definition dquote : string := String "034"%char EmptyString.

(** Decimal text of an integer, as the engine prints a number of that value
    (of magnitude below 1e21; from there on it prints an exponent). *)
Definition number_text (z : Z) : string := NilZero.string_of_int (Z.to_int z).

Definition hex_digit (n : N) : ascii :=
  ascii_of_N (if (n <? 10)%N then 48 + n else 87 + n).

(** The escape [JSON.stringify] writes for one character of a string. *)
Definition json_escape_char (c : ascii) : string :=
  let n := N_of_ascii c in
  if (n =? 34)%N then String "\" dquote
  else if (n =? 92)%N then String "\" (String "\" EmptyString)
  else if (n =? 8)%N then String "\" "b"
  else if (n =? 9)%N then String "\" "t"
  else if (n =? 10)%N then String "\" "n"
  else if (n =? 12)%N then String "\" "f"
  else if (n =? 13)%N then String "\" "r"
  else if (n <? 32)%N then
    String "\" ("u00" +:+ String (hex_digit (n / 16)) (String (hex_digit (n mod 16)) EmptyString))
  else String c EmptyString.

Fixpoint json_escape (s : string) : string :=
  match s with
  | EmptyString => EmptyString
  | String c s' => json_escape_char c +:+ json_escape s'
  end.

(** The number of occurrences of a character in a string. *)
Fixpoint count_char (c : ascii) (s : string) : nat :=
  match s with
  | EmptyString => 0
  | String x s' => (if Ascii.eqb x c then 1 else 0) + count_char c s'
  end.

Definition json_quote (s : string) : string := dquote +:+ json_escape s +:+ dquote.

(** [JSON.stringify(v)] on the values of the model; [None] is [undefined].
    Inside an array a value without JSON text is written [null], inside an
    object its property is left out. *)
Fixpoint JSON_stringify (v : jsval) : option string :=
  let member (p : string * jsval) : list (option string) :=
    match JSON_stringify p.2 with
    | Some t => [Some (json_quote p.1 +:+ ":" +:+ t)]
    | None => []
    end in
  match v with
  | JUndefined | JFun _ => None
  | JNull | JNum NaN => Some "null"
  | JBool true => Some "true"
  | JBool false => Some "false"
  | JNum (Fin z) => Some (number_text z)
  | JStr s => Some (json_quote s)
  | JArr l =>
      Some ("[" +:+ join "," (map (λ e, Some (default "null" (JSON_stringify e))) l) +:+ "]")
  | JVec3 x y z =>
      Some ("{" +:+ join "," (member ("x", x) ++ member ("y", y) ++ member ("z", z)) +:+ "}")
  | JObj _ props =>
      Some ("{" +:+ join "," (flat_map member props) +:+ "}")
  end.

End Text.

(** ** Dispatch (rpc) *)

Module Rpc.
Import Limiter Text.

(** [RpcHandler.readArgsToString]: the decoded arguments as source text. *)
Definition render_arg (arg : jsval) : option string :=
  match arg with
  | JStr s => Some (quote +:+ replace_first quote backslash_quote s +:+ quote)
  | _ => JSON_stringify arg
  end.

Definition readArgsToString (serializedArgs : jsval) : outcome string :=
  args ←! Codec.RpcArguments_read serializedArgs;
  Ok (join "," (render_arg <$> args)).

(** An inbound call [{on, fn, args}] as the transport delivers it. *)
Record rpc_call := {
  on : string;
  fn : string;
  args : jsval;
}.

(** A registry entry.  The callable lives inside the sandbox and is only
    ever reached through the call text handed to the VM; [callable] names it. *)
Record rpcInfo := {
  info_config : rpcConfig;
  limiter : PerUserRateLimiter;
  callable : string;
}.

(** What the handler does to the outside: console lines and VM runs.
    [ConsoleErrorStack e] is [console.error(e.stack)] for an error [e] the
    engine raised. *)
Inductive event :=
| ConsoleWarn (msg : string)
| ConsoleError (msg : string)
| ConsoleErrorStack (e : jserror)
| VmRun (call : string).

(** What a run of the sandbox may throw: [null] or [undefined], which have
    no [stack] to read, or any other value, with the text the console
    prints for its [stack]. *)
Inductive thrown :=
| ThrownNullish
| Thrown (stack : string).

Section Handler.
(** The sandbox (vm2's [VM]) is outside the repository: its state is a
    type of its own and [vm_run call vm] is [vm.run(call)], giving what the
    run throws, if it throws, and the sandbox after the run. *)
Variable vm_state : Type.
Variable vm_run : string → vm_state → option thrown * vm_state.

(** The part of [VMGlobal] that dispatch reads and writes: the two
    registries of [interspace.__internal.registeredFunctions] and [_vm],
    which is [null] until the document has been set. *)
Record VMGlobal := {
  server : gmap string rpcInfo;
  clients_registry : gmap string rpcInfo;
  _vm : option vm_state;
}.

(** [VMGlobal.registeredFunction(type, name)], each registry read as the
    finite map of the entries [open] has stored.  The handler passes
    ["server"]; a type that names no registry has no entry.  The reading
    holds for a name that is registered or is no inherited name
    ([PlainObject.inherited_name]): under an inherited name that is not
    registered the source finds the inherited value, which is truthy. *)
Definition registeredFunction (g : VMGlobal) (type name : string) : option rpcInfo :=
  if String.eqb type "server" then server g !! name
  else if String.eqb type "clients" then clients_registry g !! name
  else None.

Definition call_text (uuid fn argsAsString : string) : string :=
  let argsPrefix := if String.eqb argsAsString "" then "" else ", " in
  "interspace.__internal.registeredFunctions.server"
  +:+ "[" +:+ dquote +:+ fn +:+ dquote +:+ "].fn.call("
  +:+ "{sender: interspace.clients.byId(" +:+ dquote +:+ uuid +:+ dquote +:+ ")}"
  +:+ argsPrefix +:+ argsAsString +:+ ")".

Definition error_header (fn argsAsString : string) : string :=
  "ERROR invoking RPC call " +:+ fn +:+ "(" +:+ argsAsString +:+ "):".

(** [VMGlobal.run].  The arguments are decoded before the [try]; with
    [_vm] still [null] the run itself is the fault the [catch] logs.  The
    [catch] logs the header and then reads [e.stack]: when the run has
    thrown [null] or [undefined] that reading raises, and the [TypeError]
    leaves [run]. *)
Definition run (uuid fn : string) (args : jsval) (g : VMGlobal)
  : outcome unit * VMGlobal * list event :=
  match readArgsToString args with
  | Throw e => (Throw e, g, [])
  | Ok argsAsString =>
      let call := call_text uuid fn argsAsString in
      match _vm g with
      | None =>
          (Ok (), g,
           [ConsoleError (error_header fn argsAsString);
            ConsoleErrorStack (TypeError "Cannot read property 'run' of null")])
      | Some vm =>
          let '(fault, vm') := vm_run call vm in
          let g' := {| server := server g;
                       clients_registry := clients_registry g;
                       _vm := Some vm' |} in
          match fault with
          | None => (Ok (), g', [VmRun call])
          | Some (Thrown stack) =>
              (Ok (), g',
               [VmRun call;
                ConsoleError (error_header fn argsAsString);
                ConsoleError stack])
          | Some ThrownNullish =>
              (Throw (TypeError "Cannot read property 'stack' of null or undefined"),
               g',
               [VmRun call;
                ConsoleError (error_header fn argsAsString)])
          end
      end
  end.

Definition drop_line (c : rpc_call) (why : string) : string :=
  "DROP " +:+ on c +:+ "." +:+ fn c +:+ ": " +:+ why.

(** [RpcHandler.invoke], for the sender with the given uuid, at clock
    reading [now].  The limiter of the entry is updated in place.  The
    registry and the limiter are read as maps, as [registeredFunction] and
    [Limiter.user_allows] say. *)
Definition invoke (now : Z) (uuid : string) (c : rpc_call) (g : VMGlobal)
  : outcome unit * VMGlobal * list event :=
  if negb (String.eqb (on c) "server") then
    (Ok (), g, [ConsoleWarn (drop_line c ("invalid execution target " +:+ on c))])
  else
    match registeredFunction g (on c) (fn c) with
    | None => (Ok (), g, [ConsoleWarn (drop_line c "unknown")])
    | Some info =>
        let '(allowed, limiter') := user_allows now uuid (limiter info) in
        let info' := {| info_config := info_config info;
                        limiter := limiter';
                        callable := callable info |} in
        let g' := {| server := <[fn c := info']> (server g);
                     clients_registry := clients_registry g;
                     _vm := _vm g |} in
        if negb allowed then (Ok (), g', [ConsoleWarn (drop_line c "rate limiter")])
        else run uuid (fn c) (args c) g'
    end.

End Handler.

(** The number of call texts a trace hands to the VM. *)
Definition is_vm_run (e : event) : bool :=
  match e with
  | VmRun _ => true
  | _ => false
  end.

Definition vm_runs (tr : list event) : nat := length (List.filter is_vm_run tr).

Arguments server {vm_state} _.
Arguments clients_registry {vm_state} _.
Arguments _vm {vm_state} _.
Arguments registeredFunction {vm_state} _ _ _.
Arguments run {vm_state} _ _ _ _ _.
Arguments invoke {vm_state} _ _ _ _ _.

End Rpc.

(** ** The virtual document (dom) *)

Module Dom.

(** Parsed nodes and their wrappers are objects: each is known by its
    identity, a number, and two references are equal when the numbers are. *)
Definition node := nat.
Definition wrapper := nat.

(** What the document code reads of a parsed node. *)
Record domnode := {
  tagName : string;
  parentNode : option node;
  childNodes : list node;
}.

(** The store: the parsed tree, the [__vmElement] field of each node, the
    [ElementToCheerio] table, and the identity the next [new VMElement]
    receives. *)
Record heap := {
  nodes : gmap node domnode;
  vmElement : gmap node wrapper;
  ElementToCheerio : gmap wrapper node;
  next_wrapper : wrapper;
}.

(** [VMElement.from($, cheerioElement)]; [None] is [null]. *)
Definition VMElement_from (cheerioElement : option node) (h : heap)
  : option wrapper * heap :=
  match cheerioElement with
  | None => (None, h)
  | Some n =>
      match vmElement h !! n with
      | Some w => (Some w, h)
      | None =>
          let newElement := next_wrapper h in
          (Some newElement,
           {| nodes := nodes h;
              vmElement := <[n := newElement]> (vmElement h);
              ElementToCheerio := <[newElement := n]> (ElementToCheerio h);
              next_wrapper := S newElement |})
      end
  end.

(** [els.map((i, el) => VMElement.from($, el)).get()]. *)
Fixpoint from_all (els : list node) (h : heap) : list wrapper * heap :=
  match els with
  | [] => ([], h)
  | el :: els' =>
      let '(w, h1) := VMElement_from (Some el) h in
      let '(ws, h2) := from_all els' h1 in
      (option_list w ++ ws, h2)
  end.

Definition parent_of (h : heap) (n : node) : option node :=
  nodes h !! n ≫= parentNode.

(** The getter of [parentNode] on the wrapper of node [n]. *)
Definition get_parentNode (n : node) (h : heap) : option wrapper * heap :=
  VMElement_from (parent_of h n) h.

(** The getter of [firstChild] on the wrapper of node [n]. *)
Definition get_firstChild (n : node) (h : heap) : option wrapper * heap :=
  VMElement_from (nodes h !! n ≫= λ d, head (childNodes d)) h.

(** [cheerioElement.append(child)] of the cheerio library, on a child
    without parent: the child becomes the last child of the element. *)
Definition cheerio_append (e c : node) (ns : gmap node domnode) : gmap node domnode :=
  let adopt d := {| tagName := tagName d; parentNode := Some e;
                    childNodes := childNodes d |} in
  let extend d := {| tagName := tagName d; parentNode := parentNode d;
                     childNodes := childNodes d ++ [c] |} in
  alter extend e (alter adopt c ns).

(** [appendChild] of the wrapper of node [e], applied to [child]. *)
Definition appendChild (e : node) (child : wrapper) (h : heap) : outcome unit * heap :=
  match ElementToCheerio h !! child with
  | None => (Throw (TypeError "Cannot read property 'parentNode' of undefined"), h)
  | Some childCheerio =>
      match parent_of h childCheerio with
      | Some _ => (Throw (AlreadyHasParent child), h)
      | None =>
          (Ok (),
           {| nodes := cheerio_append e childCheerio (nodes h);
              vmElement := vmElement h;
              ElementToCheerio := ElementToCheerio h;
              next_wrapper := next_wrapper h |})
      end
  end.

Section Document.
(** [$(query)] of the cheerio library: the nodes of the tree that match
    the query, in document order. *)
Variable select : gmap node domnode → string → list node.

(** [VMDocument._query] and [VMDocument.getElementById]. *)
Definition _query (query : string) (h : heap) : list wrapper * heap :=
  from_all (select (nodes h) query) h.

Definition getElementById (id : string) (h : heap) : option wrapper * heap :=
  let '(ws, h') := _query ("#" +:+ id) h in (head ws, h').
End Document.

(** One step in the life of a document: a wrapper is asked for (every
    lookup, query and navigation ends in [VMElement.from]), or the tree
    changes (a parse, or a mutation by cheerio, none of which writes
    [__vmElement]). *)
Inductive heap_step : heap → heap → Prop :=
| step_from el h : heap_step h (VMElement_from el h).2
| step_tree ns h :
    heap_step h {| nodes := ns; vmElement := vmElement h;
                   ElementToCheerio := ElementToCheerio h;
                   next_wrapper := next_wrapper h |}.

(** A store is well formed when the wrappers handed out are older than the
    next one and no two nodes hold the same wrapper; the store of a freshly
    parsed document, where no node has a wrapper, is. *)
Definition heap_wf (h : heap) : Prop :=
  (∀ n w, vmElement h !! n = Some w → w < next_wrapper h)
  ∧ (∀ n m w, vmElement h !! n = Some w → vmElement h !! m = Some w → n = m).

End Dom.

(** ** Participants (client-minimal) *)

Module Client.

Record position := { x : jsnum; y : jsnum; z : jsnum }.

(** A position update: each of [x], [y], [z] is a number, or is absent or
    [undefined] ([None]). *)
Record update := {
  new_x : option jsnum;
  new_y : option jsnum;
  new_z : option jsnum;
}.

Record MinimalClient := { uuid : string; state : position }.

Definition MinimalClient_new (uuid : string) : MinimalClient :=
  {| uuid := uuid; state := {| x := Fin 0; y := Fin 0; z := Fin 0 |} |}.

(** [_.merge({x: current.x, y: current.y, z: current.z}, newState)] of
    lodash: a source property that is [undefined] leaves the destination's
    value. *)
Definition merge (current : position) (newState : update) : position :=
  {| x := default (x current) (new_x newState);
     y := default (y current) (new_y newState);
     z := default (z current) (new_z newState) |}.

(** [a === b] on numbers. *)
Definition strict_eq (a b : jsnum) : bool :=
  match a, b with
  | Fin a, Fin b => (a =? b)%Z
  | _, _ => false
  end.

(** [current.x === newState.x && current.y === newState.y && current.z === newState.z]. *)
Definition same_position (current newState : position) : bool :=
  strict_eq (x current) (x newState)
  && strict_eq (y current) (y newState)
  && strict_eq (z current) (z newState).

(** [MinimalClient.updateState]; the boolean tells whether
    [this.state = newState] was reached. *)
Definition updateState (newState : update) (c : MinimalClient) : MinimalClient * bool :=
  let current := state c in
  let newState := merge current newState in
  if same_position current newState then (c, false)
  else ({| uuid := uuid c; state := newState |}, true).

End Client.

(** ** Sample inputs *)

Module Samples.
Import Limiter Rpc.

(** A nested sequence of maps of vectors, next to primitives. *)
Definition sample_args : list jsval :=
  [ JArr [ JObj Plain [("spawn", JVec3 (JNum (Fin 1)) (JNum (Fin 2)) (JNum (Fin 3)));
                         ("ids", JArr [])];
           JObj Plain [] ];
    JStr "Ada"; JNull; JUndefined; JBool false; JNum NaN; JArr [] ].

Definition zero_rate : rpcConfig := {| maxRate := 0; unreliable := false |}.

(** A sandbox that counts its runs and faults on every call text that is
    not the well-formed call of [greet] with one string. *)
Definition greet_text : string :=
  call_text "u1" "greet" (Text.quote +:+ "Ada" +:+ Text.quote).

Definition counting_vm (call : string) (runs : nat) : option thrown * nat :=
  (if String.eqb call greet_text then None else Some (Thrown "SyntaxError"), S runs).

Definition greet_info : rpcInfo :=
  {| info_config := default_config;
     limiter := PerUserRateLimiter_new default_config;
     callable := "greet" |}.

Definition room : VMGlobal nat :=
  {| server := {[ "greet" := greet_info ]};
     clients_registry := ∅;
     _vm := Some 0 |}.

Definition greet_call (args : jsval) : rpc_call :=
  {| on := "server"; fn := "greet"; args := args |}.

(** A document of two nodes: a hall (node 0) holding a door (node 1), with
    no wrapper made yet, and a selector that knows them by id. *)
Definition hall_and_door : Dom.heap :=
  {| Dom.nodes :=
       {[ 0 := {| Dom.tagName := "room"; Dom.parentNode := None;
                  Dom.childNodes := [1] |};
          1 := {| Dom.tagName := "mesh"; Dom.parentNode := Some 0;
                  Dom.childNodes := [] |} ]};
     Dom.vmElement := ∅;
     Dom.ElementToCheerio := ∅;
     Dom.next_wrapper := 0 |}.

Definition by_id (ns : gmap Dom.node Dom.domnode) (query : string) : list Dom.node :=
  if String.eqb query "#hall" then [0]
  else if String.eqb query "#door" then [1]
  else [].

Definition walker : Client.MinimalClient := Client.MinimalClient_new "u1".

Definition move_to (a b c : Z) : Client.update :=
  {| Client.new_x := Some (Fin a);
     Client.new_y := Some (Fin b);
     Client.new_z := Some (Fin c) |}.

End Samples.

(** ** The shape of the wire *)

Module Wire.
Import Codec.

Definition is_string (v : jsval) : bool :=
  match v with
  | JStr _ => true
  | _ => false
  end.

(** What [RpcTypes.serialize] puts on the wire: a value that is no array,
    vector or object as it is, and otherwise an array that opens with its
    tag, followed by one payload (["a"], ["v3"]) or by a payload of keys and
    a payload of values (["o"]); a payload is [null] or an array of such
    wire values, a payload of keys [null] or an array of strings. *)
Fixpoint well_tagged (w : jsval) : bool :=
  let payload (p : jsval) : bool :=
    match p with
    | JNull => true
    | JArr ws => forallb well_tagged ws
    | _ => false
    end in
  let keys (p : jsval) : bool :=
    match p with
    | JNull => true
    | JArr ks => forallb is_string ks
    | _ => false
    end in
  match w with
  | JArr [] => false
  | JArr (tag :: rest) =>
      match rest with
      | [p] => (is_tag tag "a" || is_tag tag "v3") && payload p
      | [pk; pv] => is_tag tag "o" && keys pk && payload pv
      | _ => false
      end
  | JVec3 _ _ _ | JObj _ _ => false
  | _ => true
  end.

(** A wire value whose parts that are no arrays, the parts the decoder
    hands on untouched, are representable values. *)
Fixpoint sound_wire (w : jsval) : bool :=
  match w with
  | JArr l => forallb sound_wire l
  | _ => representable w
  end.

(** A key that JavaScript may list out of insertion order: a string of
    digits.  (The array indices, which an object lists first and in
    ascending order, are among them.) *)
Definition integer_like (s : string) : bool :=
  negb (String.eqb s "")
  && forallb (λ c : ascii, (48 <=? nat_of_ascii c) && (nat_of_ascii c <=? 57))
             (list_ascii_of_string s).

Definition ordinary_key (k : jsval) : bool :=
  match k with
  | JStr s => negb (integer_like s)
  | _ => false
  end.

(** Keys the decoder and the object model follow exactly: in every array
    that opens with the tag ["o"] the payload of keys holds strings that
    are not integer-like, so that [obj[key] = val] converts no key and
    lists the properties in the order of their first assignment; and the
    objects handed on untouched have no integer-like key either. *)
Fixpoint ordinary_keys (w : jsval) : bool :=
  match w with
  | JArr l =>
      forallb ordinary_keys l
      && match l with
         | typeName :: JArr ks :: _ =>
             negb (is_tag typeName "o") || forallb ordinary_key ks
         | _ => true
         end
  | JVec3 x y z => ordinary_keys x && ordinary_keys y && ordinary_keys z
  | JObj _ props =>
      forallb (λ p, negb (integer_like p.1) && ordinary_keys p.2) props
  | _ => true
  end.

(** What the transport delivers, the values [JSON.parse] makes: [null],
    booleans, the numbers printed in plain decimal, strings, arrays and
    plain objects of such values with pairwise distinct keys.  They hold no
    function, so no [map] and no [toJSON] is ever called on them. *)
Fixpoint json_data (w : jsval) : bool :=
  match w with
  | JNull | JBool _ | JStr _ => true
  | JNum (Fin z) => bool_decide (Z.abs z < 10 ^ 21)%Z
  | JArr l => forallb json_data l
  | JObj Plain props =>
      bool_decide (NoDup props.*1) && forallb (λ p, json_data p.2) props
  | _ => false
  end.

(** A value that holds neither an object nor a vector, at any depth. *)
Fixpoint no_objects (w : jsval) : bool :=
  match w with
  | JArr l => forallb no_objects l
  | JVec3 _ _ _ | JObj _ _ => false
  | _ => true
  end.

End Wire.

(** ** Registration and the invokers (rpc) *)

Module Registry.
Import Limiter Text Rpc PlainObject.

(** Calls of one sender on a per-user limiter, at the given clock readings. *)
Fixpoint user_allows_all (uuid : string) (nows : list Z) (p : PerUserRateLimiter)
  : list bool * PerUserRateLimiter :=
  match nows with
  | [] => ([], p)
  | now :: nows' =>
      let '(b, p1) := user_allows now uuid p in
      let '(bs, p2) := user_allows_all uuid nows' p1 in
      (b :: bs, p2)
  end.

(** Calls of several senders on a per-user limiter, each with the sender's
    uuid and the clock reading. *)
Fixpoint callers_all (calls : list (string * Z)) (p : PerUserRateLimiter)
  : PerUserRateLimiter :=
  match calls with
  | [] => p
  | (uuid, now) :: calls' => callers_all calls' (user_allows now uuid p).2
  end.

(** The two sources of [open]: [VMServer] and [VMClients], known by their
    [type] field. *)
Inductive surface := Server | Clients.

Definition surface_type (src : surface) : string :=
  match src with
  | Server => "server"
  | Clients => "clients"
  end.

(** [v.name]; [None] is the [TypeError] of reading a property of
    [undefined] or [null].  A function has its name, an object its own
    [name] property if any, every other value none. *)
Definition name_of (v : jsval) : option jsval :=
  match v with
  | JUndefined | JNull => None
  | JFun n => Some (JStr n)
  | JObj _ props => Some (Codec.lookup_prop "name" props)
  | _ => Some JUndefined
  end.

Fixpoint own_prop (key : string) (props : list (string * jsval)) : option jsval :=
  match props with
  | [] => None
  | (k, v) :: props' => if String.eqb k key then Some v else own_prop key props'
  end.

(** [_buildConfig(opts)]: the defaults, overlaid by [Object.assign] with the
    own properties of a truthy [opts].  The limiter reads [maxRate] and
    nothing reads [unreliable] or any further key, so the configuration is
    kept as its two fields; [None] marks options whose [maxRate] is no
    finite number or whose [unreliable] is no boolean.  Vectors, arrays,
    strings and the other values that are no objects have no own property
    of either name. *)
Definition _buildConfig (opts : jsval) : option rpcConfig :=
  if negb (truthy opts) then Some default_config
  else match opts with
       | JObj _ props =>
           match own_prop "maxRate" props, own_prop "unreliable" props with
           | None, None => Some default_config
           | Some (JNum (Fin rate)), None =>
               Some {| maxRate := rate; unreliable := false |}
           | None, Some (JBool u) => Some {| maxRate := 5; unreliable := u |}
           | Some (JNum (Fin rate)), Some (JBool u) =>
               Some {| maxRate := rate; unreliable := u |}
           | _, _ => None
           end
       | _ => Some default_config
       end.

(** What [open] may end in: the entry stored and the bound invoker
    [src.run.bind(src, name)] returned; the [Error] raised when no name
    string is at hand, carrying the name found; the [TypeError] of
    [fn.name] on [undefined] or [null]; or an entry outside the typed
    registry (options as above, a callable that is no function, or the name
    ["__proto__"], under which the assignment stores no entry). *)
Inductive open_result (V : Type) :=
| Registered (g : VMGlobal V) (invoker : surface * string)
| NameError (name : jsval)
| NoNameOf
| OutsideRegistry.
Arguments Registered {V} g invoker.
Arguments NameError {V} name.
Arguments NoNameOf {V}.
Arguments OutsideRegistry {V}.

(** [this.registeredFunctions[src.type][name] = {config, limiter, fn}]. *)
Definition register {V : Type} (src : surface) (name : string) (config : rpcConfig)
    (f : string) (g : VMGlobal V) : VMGlobal V :=
  let entry := {| info_config := config;
                  limiter := PerUserRateLimiter_new config;
                  callable := f |} in
  match src with
  | Server => {| server := <[name := entry]> (server g);
                 clients_registry := clients_registry g;
                 _vm := _vm g |}
  | Clients => {| server := server g;
                  clients_registry := <[name := entry]> (clients_registry g);
                  _vm := _vm g |}
  end.

(** The first part of [open]: the three call shapes with an empty [fn]
    slot are brought to [(name, opts, fn)]. *)
Definition open_shape (name opts fn : jsval) : option (jsval * jsval * jsval) :=
  if negb (truthy fn) then
    if negb (truthy opts) then
      n ← name_of name; Some (n, JUndefined, name)
    else if Wire.is_string name then Some (name, JUndefined, opts)
    else n ← name_of opts; Some (n, JUndefined, opts)
  else Some (name, opts, fn).

(** [InternalInterspaceModule.open(src, name, opts, fn)]. *)
Definition open {V : Type} (src : surface) (name opts fn : jsval) (g : VMGlobal V)
  : open_result V :=
  match open_shape name opts fn with
  | None => NoNameOf
  | Some (name, opts, fn) =>
      match name with
      | JStr key =>
          if String.eqb key "" then NameError name
          else if String.eqb key "__proto__" then OutsideRegistry
          else match _buildConfig opts, fn with
               | Some config, JFun f =>
                   Registered (register src key config f g) (src, key)
               | _, _ => OutsideRegistry
               end
      | _ => NameError name
      end
  end.

(** [VMServer.run(fnName, ...args)]: what the registry holds under a name
    is the entry [{config, limiter, fn}], an object without [apply].  Under
    an inherited name that is not registered it finds a function of
    [Object.prototype]; what that function does with the arguments is left
    open ([None]). *)
Definition VMServer_run {V : Type} (fnName : string) (args : list jsval) (g : VMGlobal V)
  : option (outcome unit) :=
  match server g !! fnName with
  | None =>
      if inherited_name fnName then None
      else Some (Throw (TypeError "Cannot read property 'apply' of undefined"))
  | Some _ => Some (Throw (TypeError "fn.apply is not a function"))
  end.

(** A run of inbound calls of one sender, each with its clock reading. *)
Fixpoint invoke_all {V : Type} (vm_run : string → V → option thrown * V)
    (uuid : string) (calls : list (Z * rpc_call)) (g : VMGlobal V)
  : list (outcome unit * list event) * VMGlobal V :=
  match calls with
  | [] => ([], g)
  | (now, c) :: calls' =>
      let '(res, g1, tr) := invoke vm_run now uuid c g in
      let '(rs, g2) := invoke_all vm_run uuid calls' g1 in
      ((res, tr) :: rs, g2)
  end.

(** A call of the runs studied below: to the server, for the function
    under [key], with arguments as the transport delivers them, which
    decode, no later than 1000ms after [t0]. *)
Definition in_window_call (key : string) (t0 : Z) (tc : Z * rpc_call) : Prop :=
  (tc.1 - t0 ≤ 1000)%Z ∧ on tc.2 = "server" ∧ fn tc.2 = key
  ∧ Wire.json_data (args tc.2) = true ∧ Wire.ordinary_keys (args tc.2) = true
  ∧ ∃ text, readArgsToString (args tc.2) = Ok text.

End Registry.

(** ** Outbound calls and broadcast text (rpc, util) *)

Module Outbound.
Import Text.

(** [k.charAt(0) == '_']. *)
Definition internal_key (k : string) : bool :=
  match k with
  | String c _ => Ascii.eqb c "_"
  | EmptyString => false
  end.

(** [JSON.stringify(v, replacer)] with the replacer of [buildMessage], which
    answers [undefined] for a key that starts with an underscore and the
    value itself for any other key. *)
Fixpoint stringify_public (v : jsval) : option string :=
  let member (p : string * jsval) : list (option string) :=
    if internal_key p.1 then []
    else match stringify_public p.2 with
         | Some t => [Some (json_quote p.1 +:+ ":" +:+ t)]
         | None => []
         end in
  match v with
  | JUndefined | JFun _ => None
  | JNull | JNum NaN => Some "null"
  | JBool true => Some "true"
  | JBool false => Some "false"
  | JNum (Fin z) => Some (number_text z)
  | JStr s => Some (json_quote s)
  | JArr l =>
      Some ("[" +:+ join "," (map (λ e, Some (default "null" (stringify_public e))) l) +:+ "]")
  | JVec3 x y z =>
      Some ("{" +:+ join "," (member ("x", x) ++ member ("y", y) ++ member ("z", z)) +:+ "}")
  | JObj _ props =>
      Some ("{" +:+ join "," (flat_map member props) +:+ "}")
  end.

(** [buildMessage(room, message, data)]; a text that is [undefined] is
    concatenated as the word. *)
Definition buildMessage (room message : string) (data : jsval) : string :=
  let data := if truthy data then data else JObj Plain [] in
  message +:+ " " +:+ default "undefined" (stringify_public data).

(** A value without its internal fields, at every depth. *)
Fixpoint strip_internal (v : jsval) : jsval :=
  match v with
  | JArr l => JArr (map strip_internal l)
  | JVec3 x y z => JVec3 (strip_internal x) (strip_internal y) (strip_internal z)
  | JObj k props =>
      JObj k (flat_map (λ p, if internal_key p.1 then []
                             else [(p.1, strip_internal p.2)]) props)
  | _ => v
  end.

(** [JSON.stringify] hands a value that has a [toJSON] method to that
    method.  The data the text functions follow has none: its objects are
    plain and hold no function under ["toJSON"], at every depth. *)
Fixpoint plain_data (v : jsval) : bool :=
  match v with
  | JArr l => forallb plain_data l
  | JVec3 x y z => plain_data x && plain_data y && plain_data z
  | JObj Plain props =>
      forallb (λ p, plain_data p.2
                    && negb (String.eqb p.1 "toJSON"
                             && match p.2 with JFun _ => true | _ => false end))
              props
  | JObj (Instance _) _ => false
  | _ => true
  end.

(** [room.broadcast(msgType, data)]: the text is written to the publisher
    if there is one, and otherwise only warned about. *)
Inductive sink_event :=
| PublisherWrite (roomId message : string)
| PublisherMissing (message : string).

Definition broadcast (publisher : bool) (room msgType : string) (data : jsval)
  : sink_event :=
  let message := buildMessage room msgType data in
  if publisher then PublisherWrite room message else PublisherMissing message.

(** The call object [{fn, on: 'clients', args}] of [VMClients.run] and
    [VMClient.run]. *)
Definition client_call (fnName : string) (wire : jsval) : jsval :=
  JObj Plain [("fn", JStr fnName); ("on", JStr "clients"); ("args", wire)].

(** [VMClients.run(fnName, ...args)]: the call object, and what the
    broadcast does with it. *)
Definition VMClients_run (publisher : bool) (room fnName : string) (args : list jsval)
  : outcome (jsval * sink_event) :=
  wire ←! Codec.RpcArguments_serialize [JArr args];
  Ok (client_call fnName wire, broadcast publisher room "rpc" (client_call fnName wire)).

End Outbound.

(** ** More of the virtual document (dom) *)

Module DomMore.
Import Dom.

(** [kids.index(c)] of cheerio on a list of nodes: the first position of
    the node, [None] for -1. *)
Fixpoint index_of (c : node) (kids : list node) : option nat :=
  match kids with
  | [] => None
  | k :: kids' => if Nat.eqb k c then Some 0 else S <$> index_of c kids'
  end.

(** [cheerioElement.children()]: the parsed nodes of the model are all
    elements, so the children of an element are its [childNodes]. *)
Definition children_of (h : heap) (e : node) : list node :=
  default [] (childNodes <$> nodes h !! e).

(** [.remove()] of the cheerio library on one node: the node leaves the
    children of its parent and has no parent any more. *)
Definition cheerio_remove (c : node) (ns : gmap node domnode) : gmap node domnode :=
  let orphan d := {| tagName := tagName d; parentNode := None;
                     childNodes := childNodes d |} in
  let without d := {| tagName := tagName d; parentNode := parentNode d;
                      childNodes := List.filter (λ k, negb (Nat.eqb k c)) (childNodes d) |} in
  match ns !! c ≫= parentNode with
  | Some p => alter orphan c (alter without p ns)
  | None => ns
  end.

(** [removeChild] of the wrapper of node [e], applied to a wrapper the
    table knows; [None] stands for an argument that is no wrapper, where
    what [index] does is the library's affair. *)
Definition removeChild (e : node) (child : wrapper) (h : heap) : option heap :=
  match ElementToCheerio h !! child with
  | None => None
  | Some childCheerio =>
      match index_of childCheerio (children_of h e) with
      | None => Some h
      | Some _ =>
          Some {| nodes := cheerio_remove childCheerio (nodes h);
                  vmElement := vmElement h;
                  ElementToCheerio := ElementToCheerio h;
                  next_wrapper := next_wrapper h |}
      end
  end.

(** Every wrapper handed out is in the [ElementToCheerio] table, under the
    node it wraps. *)
Definition heap_linked (h : heap) : Prop :=
  ∀ n w, vmElement h !! n = Some w → ElementToCheerio h !! w = Some n.

Section DocumentTable.
(** [cheerio.load(iml, {xmlMode: true})] of the cheerio library. *)
Variable cheerio : Type.
Variable load : string → cheerio.

(** The property key a document becomes in [DocumentTo$[document]]:
    [DocumentTo$] is indexed like a plain object, and a [VMDocument], which
    has no [toString] of its own, converts to the same string as every
    other. *)
Definition document_key (document : nat) : string := "[object Object]".

(** The constructor of [VMDocument], on the properties of [DocumentTo$], and
    [getDocument$]. *)
Definition VMDocument_new (document : nat) (iml : string)
    (table : gmap string cheerio) : gmap string cheerio :=
  <[document_key document := load iml]> table.

Definition getDocument (document : nat) (table : gmap string cheerio)
  : option cheerio :=
  table !! document_key document.
End DocumentTable.

End DomMore.

(** ** Session messages (index) *)

Module Session.
Import Client PlainObject.

(** A message of the room-state stream; [position] holds its [x], [y], [z]. *)
Record message := {
  roomId : string;
  uuid : string;
  type : string;
  position : update;
}.

(** What the handler emits on the room: [emit('join', client)] and
    [emit('leave')]. *)
Inductive room_event :=
| Join (client : MinimalClient)
| Leave.

(** What the handler leaves behind for one message: the world and the
    events emitted, the exception it raises, or, for a join under
    ["__proto__"], a room whose [states] has a new prototype and no new
    property, which the world of own properties does not hold. *)
Inductive handled :=
| Handled (world : gmap string (gmap string MinimalClient)) (events : list room_event)
| Raised (e : jserror)
| PrototypeReplaced.

(** The [data] handler of [roomStateMessage], for one message; the world
    maps a room to its [states], and a room the world does not hold is
    [undefined].  An update from an identity that has not joined finds
    nothing, unless the identity is an inherited name: what it finds then
    has no [updateState]. *)
Definition roomStateMessage (m : message) (world : gmap string (gmap string MinimalClient))
  : handled :=
  let no_room := Raised (TypeError "Cannot read property of undefined") in
  if String.eqb (type m) "join" then
    match world !! roomId m with
    | None => no_room
    | Some states =>
        if String.eqb (uuid m) "__proto__" then PrototypeReplaced
        else
          let client := MinimalClient_new (uuid m) in
          Handled (<[roomId m := <[uuid m := client]> states]> world) [Join client]
    end
  else if String.eqb (type m) "update" then
    match world !! roomId m with
    | None => no_room
    | Some states =>
        match states !! uuid m with
        | None =>
            if inherited_name (uuid m)
            then Raised (TypeError "current.updateState is not a function")
            else Handled world []
        | Some current =>
            Handled (<[roomId m := <[uuid m := (updateState (position m) current).1]> states]> world)
                    []
        end
    end
  else if String.eqb (type m) "leave" then
    match world !! roomId m with
    | None => no_room
    | Some states => Handled (<[roomId m := delete (uuid m) states]> world) [Leave]
    end
  else Handled world [].

(** The participant's client in a room, if both exist. *)
Definition participant (world : gmap string (gmap string MinimalClient))
    (room who : string) : option MinimalClient :=
  world !! room ≫= λ states, states !! who.

End Session.

(** * Properties *)

(** ** The codec *)

Section CodecFacts.
Import Codec.

Lemma omapM_length {A B} (f : A → outcome B) l ws :
  omapM f l = Ok ws → length ws = length l.
Proof.
  revert ws. induction l as [|a l IH]; intros ws; simpl.
  - by intros [= <-].
  - destruct (f a) as [x|]; [|done]. simpl.
    destruct (omapM f l) as [xs|]; [|done]. simpl.
    intros [= <-]. simpl. f_equal. by apply IH.
Qed.

Lemma omapM_snd_eq {K A B} (f : A → outcome B) (l : list (K * A)) :
  omapM_snd f l = omapM f l.*2.
Proof. induction l as [|p l IH]; simpl; [done|]. by rewrite IH. Qed.

(** The source shape of the decoder's callback. *)
Lemma read_rawArg_eq (rawArg : jsval) :
  read_rawArg rawArg =
  match rawArg with
  | JArr l => RpcTypes_read (idx l 0) (tail l)
  | _ => Ok rawArg
  end.
Proof.
  destruct rawArg as [| | | | | | |l|]; try reflexivity.
  destruct l as [|typeName serialized]; [reflexivity|].
  unfold RpcTypes_read, idx. simpl.
  destruct (is_tag typeName "a"); [by destruct serialized|].
  destruct (is_tag typeName "o").
  { destruct serialized as [|s0 [|s1 rest]]; reflexivity. }
  destruct (is_tag typeName "v3"); [by destruct serialized|].
  reflexivity.
Qed.

(** Strings go through the serializer untouched. *)
Lemma serialize_keys (ks : list string) :
  omapM RpcTypes_serialize (JStr <$> ks) = Ok (JStr <$> ks).
Proof.
  induction ks as [|k ks IH]; csimpl; [done|].
  rewrite IH. unfold nameFor. simpl.
  by destruct (negb (String.eqb k "")).
Qed.

Lemma RpcArguments_serialize_array (l : list jsval) :
  RpcArguments_serialize [JArr l]
  = (ws ←! omapM RpcTypes_serialize l; Ok (args_payload ws)).
Proof.
  unfold RpcArguments_serialize. destruct l as [|a l]; [done|].
  destruct (decide (length (a :: l) = 0)) as [|_]; [done|].
  destruct (omapM RpcTypes_serialize (a :: l)) as [ws|] eqn:Hws; [|done].
  apply omapM_length in Hws. by destruct ws.
Qed.

Lemma lookup_keys (props : list (string * jsval)) :
  NoDup props.*1 → (λ key, lookup_prop key props) <$> props.*1 = props.*2.
Proof.
  induction props as [|[k v] props IH]; csimpl; [done|].
  intros Hnd. apply NoDup_cons in Hnd as [Hk Hnd].
  rewrite String.eqb_refl. f_equal. rewrite <- (IH Hnd).
  apply list_fmap_ext. intros i key Hkey.
  destruct (String.eqb_spec k key) as [Heq|_]; [|done].
  exfalso. apply Hk. rewrite Heq. by eapply list_elem_of_lookup_2.
Qed.

(** The source shape of the serializer: a switch on the tag, each branch
    calling [RpcArguments.serialize] on what it reads from [obj]. *)
Lemma RpcTypes_serialize_eq (obj : jsval) :
  distinct_keys obj →
  RpcTypes_serialize obj =
  (let typeName := nameFor obj in
   if negb (truthy typeName) then Ok obj
   else if is_tag typeName "a" then
     payload ←! RpcArguments_serialize [obj];
     Ok (JArr [typeName; payload])
   else if is_tag typeName "o" then
     let keys := Object_keys obj in
     ks ←! RpcArguments_serialize [JArr (JStr <$> keys)];
     vs ←! RpcArguments_serialize [JArr (get_prop obj <$> keys)];
     Ok (JArr [typeName; ks; vs])
   else if is_tag typeName "v3" then
     payload ←! RpcArguments_serialize
                  [get_prop obj "x"; get_prop obj "y"; get_prop obj "z"];
     Ok (JArr [typeName; payload])
   else Throw (NoWayToSerialize obj)).
Proof.
  intros Hkeys.
  destruct obj as [| |b|n|s|f|x y z|l|k props]; try reflexivity.
  - simpl. unfold nameFor. simpl. by destruct b.
  - simpl. unfold nameFor. destruct (truthy (JNum n)); done.
  - simpl. unfold nameFor. destruct (truthy (JStr s)); done.
  - change (RpcTypes_serialize (JVec3 x y z))
      with (ws ←! omapM RpcTypes_serialize [x; y; z];
            Ok (JArr [JStr "v3"; args_payload ws])).
    cbn -[omapM RpcTypes_serialize].
    assert (Hargs : RpcArguments_serialize [x; y; z]
                    = (ws ←! omapM RpcTypes_serialize [x; y; z]; Ok (JArr ws))).
    { unfold RpcArguments_serialize. by destruct x. }
    rewrite Hargs.
    destruct (omapM RpcTypes_serialize [x; y; z]) as [ws|] eqn:Hws; [|done].
    apply omapM_length in Hws. by destruct ws.
  - cbn -[omapM RpcTypes_serialize RpcArguments_serialize].
    rewrite RpcArguments_serialize_array.
    change (RpcTypes_serialize (JArr l))
      with (ws ←! omapM RpcTypes_serialize l; Ok (JArr [JStr "a"; args_payload ws])).
    by destruct (omapM RpcTypes_serialize l).
  - cbn -[omapM RpcTypes_serialize RpcArguments_serialize] in *.
    rewrite !RpcArguments_serialize_array, serialize_keys.
    change (get_prop (JObj k props)) with (λ key, lookup_prop key props).
    rewrite (lookup_keys props Hkeys).
    change (RpcTypes_serialize (JObj k props))
      with (vs ←! omapM_snd RpcTypes_serialize props;
            Ok (JArr [JStr "o"; args_payload (JStr <$> props.*1); args_payload vs])).
    rewrite omapM_snd_eq. by destruct (omapM RpcTypes_serialize props.*2).
Qed.

Lemma read_keys (ks : list string) :
  omapM read_rawArg (JStr <$> ks) = Ok (JStr <$> ks).
Proof. induction ks as [|k ks IH]; csimpl; [done|]. by rewrite IH. Qed.

Lemma set_existing_fresh key val props :
  key ∉ props.*1 → set_existing key val props = None.
Proof.
  induction props as [|[k v] props IH]; csimpl; [done|].
  intros Hnotin. apply not_elem_of_cons in Hnotin as [Hne Hnotin].
  destruct (String.eqb_spec k key) as [->|_]; [done|].
  by rewrite IH.
Qed.

Lemma set_prop_fresh key val props :
  key ≠ "__proto__" → key ∉ props.*1 →
  set_prop key val props = props ++ [(key, val)].
Proof.
  intros Hproto Hnotin. unfold set_prop.
  destruct (String.eqb_spec key "__proto__") as [->|_]; [done|].
  by rewrite set_existing_fresh.
Qed.

Lemma idx_app_length (pre : list jsval) v rest :
  idx (pre ++ v :: rest) (length pre) = v.
Proof. unfold idx. by rewrite list_lookup_middle. Qed.

(** Zipping the keys of a well-formed object with its values rebuilds it. *)
Lemma obj_reduce_rebuild (props acc : list (string * jsval)) (pre : list jsval) :
  NoDup (acc.*1 ++ props.*1) →
  forallb (λ p, negb (String.eqb p.1 "__proto__")) props = true →
  obj_reduce (JStr <$> props.*1) (pre ++ props.*2) (length pre) acc
  = Ok (acc ++ props).
Proof.
  revert acc pre. induction props as [|[k v] props IH]; intros acc pre Hnd Hproto; csimpl.
  - by rewrite app_nil_r.
  - csimpl in Hproto. apply andb_prop in Hproto as [Hk Hproto].
    apply negb_true_iff in Hk.
    rewrite idx_app_length.
    apply NoDup_app in Hnd as Hnd'. destruct Hnd' as (Hacc & Hdisj & Hprops).
    rewrite set_prop_fresh.
    + specialize (IH (acc ++ [(k, v)]) (pre ++ [v])).
      rewrite length_app, Nat.add_1_r in IH. rewrite <- !(assoc_L (++)) in IH.
      apply IH; [|done].
      rewrite fmap_app. csimpl. by rewrite <- (assoc_L (++)).
    + intros ->. by rewrite String.eqb_refl in Hk.
    + intros Hin. apply (Hdisj k Hin). csimpl. apply list_elem_of_here.
Qed.

Lemma roundtrip_elements (l : list jsval) :
  Forall roundtrips l → forallb representable l = true →
  ∃ ws, omapM RpcTypes_serialize l = Ok ws ∧ omapM read_rawArg ws = Ok l.
Proof.
  induction 1 as [|v l Hv _ IH]; intros Hrep; csimpl.
  - by exists [].
  - csimpl in Hrep. apply andb_prop in Hrep as [Hrv Hrl].
    destruct (Hv Hrv) as (w & -> & Hw), (IH Hrl) as (ws & -> & Hws).
    exists (w :: ws). csimpl. by rewrite Hw, Hws.
Qed.

Lemma roundtrip_values (props : list (string * jsval)) :
  Forall (λ p, roundtrips p.2) props →
  forallb (λ p, representable p.2) props = true →
  ∃ vs, omapM_snd RpcTypes_serialize props = Ok vs
        ∧ omapM read_rawArg vs = Ok props.*2.
Proof.
  intros Hall Hrep. rewrite omapM_snd_eq. apply roundtrip_elements.
  - by apply Forall_fmap.
  - clear Hall. induction props as [|p props IH]; csimpl in *; [done|].
    apply andb_prop in Hrep as [-> Hrep]. by rewrite IH.
Qed.

Lemma args_payload_read (ws vs : list jsval) :
  omapM read_rawArg ws = Ok vs → RpcArguments_read (args_payload ws) = Ok vs.
Proof. destruct ws; simpl; [by intros [= <-]|done]. Qed.

Lemma roundtrip_value (v : jsval) : roundtrips v.
Proof.
  induction v as [| | | | | |x y z IHx IHy IHz|l IH|k props IH]
    using jsval_nested_ind; intros Hrep.
  - by exists JUndefined.
  - by exists JNull.
  - exists (JBool b). split; [|done]. simpl. unfold nameFor. simpl. by destruct b.
  - exists (JNum n). split; [|done]. simpl. unfold nameFor. simpl.
    destruct n as [|z]; [done|]. simpl. by destruct (z =? 0)%Z.
  - exists (JStr s). split; [|done]. simpl. unfold nameFor. simpl.
    by destruct (String.eqb s "").
  - done.
  - simpl in Hrep.
    repeat (apply andb_prop in Hrep as [Hrep ?]).
    destruct (roundtrip_elements [x; y; z]) as (ws & Hser & Hread).
    { by repeat constructor. }
    { simpl. by repeat (apply andb_true_intro; split). }
    apply omapM_length in Hser as Hlen.
    exists (JArr [JStr "v3"; args_payload ws]). split.
    + change (RpcTypes_serialize (JVec3 x y z))
        with (ws ←! omapM RpcTypes_serialize [x; y; z];
              Ok (JArr [JStr "v3"; args_payload ws])).
      by rewrite Hser.
    + rewrite read_rawArg_eq. unfold RpcTypes_read. simpl.
      change (idx [args_payload ws] 0) with (args_payload ws).
      rewrite (args_payload_read _ _ Hread). simpl.
      unfold Vector3_new, idx. simpl.
      by destruct x, y, z.
  - simpl in Hrep.
    destruct (roundtrip_elements l IH Hrep) as (ws & Hser & Hread).
    exists (JArr [JStr "a"; args_payload ws]). split.
    + simpl. by rewrite Hser.
    + rewrite read_rawArg_eq. unfold RpcTypes_read. simpl.
      change (idx [args_payload ws] 0) with (args_payload ws).
      by rewrite (args_payload_read _ _ Hread).
  - destruct k as [|cls]; [|done]. simpl in Hrep.
    apply andb_prop in Hrep as [Hrep Hvals]. apply andb_prop in Hrep as [Hnd Hproto].
    apply bool_decide_eq_true in Hnd.
    destruct (roundtrip_values props IH Hvals) as (vs & Hser & Hread).
    exists (JArr [JStr "o"; args_payload (JStr <$> props.*1); args_payload vs]). split.
    + simpl. by rewrite Hser.
    + rewrite read_rawArg_eq. unfold RpcTypes_read. simpl.
      change (idx [?a; ?b] 0) with a. change (idx [?a; ?b] 1) with b.
      rewrite (args_payload_read _ _ (read_keys _)). simpl.
      rewrite (args_payload_read _ _ Hread). simpl.
      pose proof (obj_reduce_rebuild props [] [] Hnd Hproto) as Hobj.
      simpl in Hobj. by rewrite Hobj.
Qed.

(** Why a representable vector has no [undefined] component: the
    constructor's default takes its place on the way back. *)
Example undefined_component_takes_default :
  (w ←! RpcArguments_serialize [JArr [JVec3 JUndefined (JNum (Fin 1)) (JNum (Fin 2))]];
   RpcArguments_read w)
  = Ok [JVec3 (JNum (Fin 0)) (JNum (Fin 1)) (JNum (Fin 2))].
Proof. reflexivity. Qed.

End CodecFacts.

Section CodecClaims.
Import Codec Samples.

(** The serializer has no failing input: its [default] branch is never
    taken, because [nameFor] yields a tag only for the three shapes the
    switch handles. *)
Lemma RpcTypes_serialize_total (v : jsval) : ∃ w, RpcTypes_serialize v = Ok w.
Proof.
  assert (Hlist : ∀ l, Forall (λ v, ∃ w, RpcTypes_serialize v = Ok w) l →
                       ∃ ws, omapM RpcTypes_serialize l = Ok ws).
  { induction 1 as [|a l [w Hw] _ [ws Hws]]; csimpl; [by eexists|].
    rewrite Hw, Hws. by eexists. }
  induction v as [| | | | | |x y z IHx IHy IHz|l IH|k props IH] using jsval_nested_ind;
    try (by eexists).
  - simpl. unfold nameFor. simpl. destruct (negb b); by eexists.
  - simpl. unfold nameFor. destruct (negb (truthy (JNum n))); by eexists.
  - simpl. unfold nameFor. destruct (negb (truthy (JStr s))); by eexists.
  - destruct (Hlist [x; y; z]) as [ws Hws]; [by repeat constructor|].
    change (RpcTypes_serialize (JVec3 x y z))
      with (ws ←! omapM RpcTypes_serialize [x; y; z];
            Ok (JArr [JStr "v3"; args_payload ws])).
    rewrite Hws. by eexists.
  - destruct (Hlist l IH) as [ws Hws]. simpl. rewrite Hws. by eexists.
  - destruct (Hlist props.*2) as [ws Hws]; [by apply Forall_fmap|].
    simpl. rewrite omapM_snd_eq, Hws. by eexists.
Qed.

(** C1.  Round trip of the codec: for every argument list [args] of
    representable values (primitives, [null] and [undefined], vectors,
    arrays and plain objects, nested at will),
    [RpcArguments.read(RpcArguments.serialize(args))] returns [args]. *)
Theorem codec_roundtrip (args : list jsval) :
  forallb representable args = true →
  (w ←! RpcArguments_serialize [JArr args]; RpcArguments_read w) = Ok args.
Proof.
  intros Hrep. destruct args as [|a args]; [done|].
  destruct (roundtrip_elements (a :: args)) as (ws & Hser & Hread); [|done|].
  { apply Forall_forall. intros v _. apply roundtrip_value. }
  apply omapM_length in Hser as Hlen.
  unfold RpcArguments_serialize.
  destruct (decide (length (a :: args) = 0)) as [|_]; [done|].
  rewrite Hser. simpl. destruct ws; [done|]. exact Hread.
Qed.

Lemma codec_roundtrip_witness :
  forallb representable sample_args = true
  ∧ (w ←! RpcArguments_serialize [JArr sample_args]; RpcArguments_read w)
    = Ok sample_args.
Proof.
  split; [reflexivity|]. apply (codec_roundtrip sample_args). reflexivity.
Defined.

(** C4, evaluated on the code.  A function handed to the serializer is
    returned as it is, alone or inside an argument list; an instance of a
    class other than [Vector3] is written as a keyed map of its own
    properties; and no value at all makes the serializer raise. *)
Theorem serialize_never_rejects :
  (∀ f, RpcTypes_serialize (JFun f) = Ok (JFun f))
  ∧ (∀ f, RpcArguments_serialize [JArr [JFun f]] = Ok (JArr [JFun f]))
  ∧ (∀ cls, RpcTypes_serialize (JObj (Instance cls) [("n", JNum (Fin 1))])
            = Ok (JArr [JStr "o"; JArr [JStr "n"]; JArr [JNum (Fin 1)]]))
  ∧ (∀ v, ∃ w, RpcTypes_serialize v = Ok w).
Proof.
  split; [done|]. split; [done|]. split; [done|]. apply RpcTypes_serialize_total.
Qed.

(** C5, as the code has it.  [serialize()] and [serialize([])] both give
    the absence sentinel [null], which reads back as the empty sequence: the
    two call shapes have the same wire form.  An empty sequence carries a
    tag only where it is itself an argument: [serialize([[]])] is
    [[["a", null]]], which reads back as [[[]]]. *)
Theorem absence_and_empty :
  RpcArguments_serialize [] = Ok JNull
  ∧ RpcArguments_read JNull = Ok []
  ∧ RpcArguments_serialize [JArr []] = Ok JNull
  ∧ (w ←! RpcArguments_serialize [JArr []]; RpcArguments_read w) = Ok []
  ∧ RpcArguments_serialize [JArr [JArr []]] = Ok (JArr [JArr [JStr "a"; JNull]])
  ∧ RpcArguments_read (JArr [JArr [JStr "a"; JNull]]) = Ok [JArr []].
Proof. repeat split. Qed.

(** C5, as stated, fails: the wire form of the zero-argument call does not
    differ from that of the call with an explicit empty sequence. *)
Lemma absence_and_empty_same_wire :
  ¬ (RpcArguments_serialize [] ≠ RpcArguments_serialize [JArr []]).
Proof. intros Hne. by apply Hne. Qed.

End CodecClaims.

(** ** The rate limiter *)

Section LimiterClaims.
Import Limiter Samples.

Lemma fresh_window_inside (cfg : rpcConfig) (t0 c t : Z) :
  t0 ≠ 0%Z → (t - t0 ≤ 1000)%Z →
  fresh_window t {| config := cfg; last := Some t0; calls := c |} = false.
Proof.
  intros Ht0 Ht. unfold fresh_window. simpl.
  apply orb_false_intro; [by apply Z.eqb_neq|].
  rewrite Z.gtb_ltb. apply Z.ltb_ge. lia.
Qed.

(** Inside an open window the count alone decides: the call that brings
    the count to [k + 2] is admitted exactly when [k + 2 <= maxRate]. *)
Lemma allows_all_inside (cfg : rpcConfig) (t0 : Z) (ts : list Z) (k : nat) :
  t0 ≠ 0%Z → Forall (λ t, t - t0 ≤ 1000)%Z ts →
  allows_all ts {| config := cfg; last := Some t0; calls := 1 + Z.of_nat k |}
  = ((λ i, bool_decide (Z.of_nat i + 2 ≤ maxRate cfg)%Z) <$> seq k (length ts),
     {| config := cfg; last := Some t0;
        calls := 1 + Z.of_nat (k + length ts) |}).
Proof.
  intros Ht0 Hts. revert k.
  induction Hts as [|t ts Ht _ IH]; intros k; csimpl.
  - by rewrite Nat.add_0_r.
  - unfold allows at 1. rewrite fresh_window_inside by done. simpl.
    replace (1 + Z.of_nat k + 1)%Z with (1 + Z.of_nat (S k))%Z by lia.
    assert (Hres : ∀ l' : GlobalRateLimiter,
      (if (1 + Z.of_nat (S k) >? maxRate cfg)%Z then (false, l') else (true, l'))
      = (bool_decide (Z.of_nat k + 2 ≤ maxRate cfg)%Z, l')).
    { intros l'. destruct (Z.gtb_spec (1 + Z.of_nat (S k)) (maxRate cfg)).
      - rewrite bool_decide_eq_false_2; [done|lia].
      - rewrite bool_decide_eq_true_2; [done|lia]. }
    rewrite Hres, IH. do 4 f_equal. lia.
Qed.

(** C3, as the code has it.  With [maxRate] 5, let a call at [t0] open a
    window.  Of the calls that follow at readings no more than 1000ms after
    [t0], the first four are admitted (five with the opening call) and every
    later one is denied; and whatever number of calls the window has seen, a
    call more than 1000ms after [t0] is admitted and opens a window of its
    own with count 1.  (A call exactly 1000ms after [t0] belongs to the old
    window.) *)
Theorem limiter_window (l : GlobalRateLimiter) (t0 t' : Z) (ts : list Z) :
  maxRate (config l) = 5%Z →
  fresh_window t0 l = true →
  t0 ≠ 0%Z →
  Forall (λ t, t - t0 ≤ 1000)%Z ts →
  (t' - t0 > 1000)%Z →
  ∃ l0 l1,
    allows t0 l = (true, l0)
    ∧ allows_all ts l0 = ((λ i, bool_decide (i < 4)) <$> seq 0 (length ts), l1)
    ∧ allows t' l1 = (true, {| config := config l; last := Some t'; calls := 1 |}).
Proof.
  intros Hmax Hfresh Ht0 Hts Ht'.
  eexists _, _. split; [|split].
  - unfold allows. by rewrite Hfresh.
  - pose proof (allows_all_inside (config l) t0 ts 0 Ht0 Hts) as Hin.
    change (1 + Z.of_nat 0)%Z with 1%Z in Hin. rewrite Hin. f_equal.
    apply list_fmap_ext. intros _ i _. rewrite Hmax.
    apply bool_decide_ext. lia.
  - unfold allows, fresh_window. simpl.
    replace (t' - t0 >? 1000)%Z with true; [by rewrite orb_true_r|].
    symmetry. rewrite Z.gtb_ltb. apply Z.ltb_lt. lia.
Qed.

Lemma limiter_window_witness :
  ∃ l0 l1,
    allows 1 (GlobalRateLimiter_new default_config) = (true, l0)
    ∧ allows_all [200; 400; 600; 800; 1000; 1001]%Z l0
      = ([true; true; true; true; false; false], l1)
    ∧ allows 1002 l1
      = (true, {| config := default_config; last := Some 1002%Z; calls := 1 |}).
Proof.
  apply (limiter_window (GlobalRateLimiter_new default_config) 1 1002
           [200; 400; 600; 800; 1000; 1001]%Z);
    [reflexivity | reflexivity | lia | repeat constructor; lia | lia].
Defined.

(** C3, as stated, fails at the boundary: after five admitted calls in the
    window opened at reading 1, a call exactly 1000ms after the window start
    is the sixth of that window and is denied. *)
Lemma limiter_boundary_denied :
  let l5 := (allows_all [1; 1; 1; 1; 1]%Z (GlobalRateLimiter_new default_config)).2 in
  (allows_all [1; 1; 1; 1; 1]%Z (GlobalRateLimiter_new default_config)).1
  = [true; true; true; true; true]
  ∧ maxRate (config l5) = 5%Z
  ∧ last l5 = Some 1%Z
  ∧ (1001 - 1 ≥ 1000)%Z
  ∧ (allows 1001 l5).1 = false.
Proof. repeat split. lia. Qed.

(** C10.  A call that finds no earlier timestamp, or arrives more than
    1000ms after the window start, is admitted whatever [maxRate] is, and
    leaves a window started at its own reading with count 1; so a limiter
    with [maxRate] 0 admits its first call. *)
Theorem first_call_ignores_maxRate (l : GlobalRateLimiter) (now : Z) :
  (last l = None ∨ ∃ t, last l = Some t ∧ (now - t > 1000)%Z) →
  allows now l = (true, {| config := config l; last := Some now; calls := 1 |})
  ∧ (maxRate (config l) = 0%Z → (allows now l).1 = true).
Proof.
  intros Hfresh.
  assert (Hw : fresh_window now l = true).
  { unfold fresh_window. destruct Hfresh as [-> | (t & -> & Ht)]; [done|].
    apply orb_true_iff. right. rewrite Z.gtb_ltb. apply Z.ltb_lt. lia. }
  unfold allows. by rewrite Hw.
Qed.

Lemma first_call_ignores_maxRate_witness :
  allows 7 (GlobalRateLimiter_new zero_rate)
  = (true, {| config := zero_rate; last := Some 7%Z; calls := 1 |})
  ∧ (maxRate zero_rate = 0%Z → (allows 7 (GlobalRateLimiter_new zero_rate)).1 = true).
Proof.
  apply (first_call_ignores_maxRate (GlobalRateLimiter_new zero_rate) 7).
  left. reflexivity.
Defined.

End LimiterClaims.

(** ** Dispatch *)

Section RpcClaims.
Import Limiter Text Rpc Samples.

Lemma prefix_empty (s : string) : String.prefix EmptyString s = true.
Proof. by destruct s. Qed.

Lemma append_assoc (a b c : string) : (a +:+ b) +:+ c = a +:+ b +:+ c.
Proof.
  induction a as [|x a IH]; [done|].
  change (String x ((a +:+ b) +:+ c) = String x (a +:+ b +:+ c)).
  by rewrite IH.
Qed.

(** The replacement touches the first quote and nothing after it. *)
Lemma replace_first_quote (a b : string) :
  count_char "'" a = 0 →
  replace_first quote backslash_quote (a +:+ quote +:+ b)
  = a +:+ backslash_quote +:+ b.
Proof.
  induction a as [|x a IH]; intros Hcount.
  - simpl. by rewrite prefix_empty.
  - simpl in Hcount. destruct (Ascii.eqb_spec x "'") as [->|Hx]; [done|].
    change (String x a +:+ quote +:+ b) with (String x (a +:+ quote +:+ b)).
    cbn [replace_first String.prefix quote].
    destruct (ascii_dec "'" x) as [<-|_]; [done|].
    fold quote. rewrite IH by done. reflexivity.
Qed.

Lemma split_first_quote (s : string) :
  1 ≤ count_char "'" s →
  ∃ a b, s = a +:+ quote +:+ b
         ∧ count_char "'" a = 0
         ∧ count_char "'" s = S (count_char "'" b).
Proof.
  induction s as [|x s IH]; simpl; [lia|].
  destruct (Ascii.eqb_spec x "'") as [->|Hx]; intros Hcount.
  - by exists EmptyString, s.
  - destruct (IH Hcount) as (a & b & -> & Ha & Hs).
    exists (String x a), b. split; [done|]. simpl.
    destruct (Ascii.eqb_spec x "'"); done.
Qed.

Lemma readArgsToString_one_string (s : string) :
  readArgsToString (JArr [JStr s])
  = Ok (quote +:+ replace_first quote backslash_quote s +:+ quote).
Proof. reflexivity. Qed.

(** C9.  A string argument with two or more single quotes splits at its
    first quote into [a] (free of quotes) and [b] (holding the later quotes);
    the call text shows it between single quotes with a backslash before
    that first quote only, and [b] as it is, its quotes unescaped. *)
Theorem readArgsToString_escapes_first_quote_only (s : string) :
  2 ≤ count_char "'" s →
  ∃ a b, s = a +:+ quote +:+ b
         ∧ count_char "'" a = 0
         ∧ 1 ≤ count_char "'" b
         ∧ readArgsToString (JArr [JStr s])
           = Ok (quote +:+ a +:+ backslash_quote +:+ b +:+ quote).
Proof.
  intros Hcount.
  destruct (split_first_quote s) as (a & b & -> & Ha & Hs); [lia|].
  exists a, b. repeat split; [done|lia|].
  rewrite readArgsToString_one_string, replace_first_quote by done.
  by rewrite !append_assoc.
Qed.

Lemma readArgsToString_escapes_first_quote_only_witness :
  ∃ a b, "it's Bob's" = a +:+ quote +:+ b
         ∧ count_char "'" a = 0
         ∧ 1 ≤ count_char "'" b
         ∧ readArgsToString (JArr [JStr "it's Bob's"])
           = Ok (quote +:+ a +:+ backslash_quote +:+ b +:+ quote).
Proof.
  apply (readArgsToString_escapes_first_quote_only "it's Bob's").
  simpl. lia.
Defined.




End RpcClaims.

(** ** The virtual document *)

Section DomClaims.
Import Dom Samples.

Lemma from_cached (h : heap) (n : node) (w : wrapper) :
  vmElement h !! n = Some w → VMElement_from (Some n) h = (Some w, h).
Proof. intros Hw. unfold VMElement_from. by rewrite Hw. Qed.

Lemma from_sets (h h' : heap) (n : node) (r : option wrapper) :
  VMElement_from (Some n) h = (r, h') →
  ∃ w, r = Some w ∧ vmElement h' !! n = Some w.
Proof.
  unfold VMElement_from. destruct (vmElement h !! n) as [w|] eqn:Hw.
  - intros [= <- <-]. by exists w.
  - intros [= <- <-]. eexists. split; [done|]. simpl. apply lookup_insert_eq.
Qed.

(** [VMElement.from] never overwrites a [__vmElement] and leaves the tree
    alone. *)
Lemma from_preserves (h : heap) (el : option node) (n : node) (w : wrapper) :
  vmElement h !! n = Some w → vmElement (VMElement_from el h).2 !! n = Some w.
Proof.
  intros Hw. destruct el as [m|]; [|done]. unfold VMElement_from.
  destruct (vmElement h !! m) as [w'|] eqn:Hm; [done|]. simpl.
  rewrite lookup_insert_ne; [done|]. intros ->. congruence.
Qed.

Lemma from_nodes (h : heap) (el : option node) :
  nodes (VMElement_from el h).2 = nodes h.
Proof.
  destruct el as [m|]; [|done]. unfold VMElement_from.
  by destruct (vmElement h !! m).
Qed.

Lemma steps_preserve (h h' : heap) (n : node) (w : wrapper) :
  rtc heap_step h h' → vmElement h !! n = Some w → vmElement h' !! n = Some w.
Proof.
  induction 1 as [|h1 h2 h3 Hstep _ IH]; [done|].
  intros Hw. apply IH. destruct Hstep; [by apply from_preserves|done].
Qed.

Lemma from_all_spec (els : list node) (h h' : heap) (ws : list wrapper) :
  from_all els h = (ws, h') →
  nodes h' = nodes h
  ∧ (∀ n w, vmElement h !! n = Some w → vmElement h' !! n = Some w)
  ∧ Forall2 (λ el w, vmElement h' !! el = Some w) els ws.
Proof.
  revert h h' ws. induction els as [|el els IH]; intros h h' ws; cbn [from_all].
  - intros [= <- <-]. by repeat split.
  - destruct (VMElement_from (Some el) h) as [r h1] eqn:Hfrom.
    destruct (from_all els h1) as [ws' h2] eqn:Hall.
    intros [= <- <-].
    destruct (from_sets _ _ _ _ Hfrom) as (w & -> & Hw).
    destruct (IH _ _ _ Hall) as (Hnodes & Hkeep & Hws).
    pose proof (from_nodes h (Some el)) as Hn. rewrite Hfrom in Hn. simpl in Hn.
    split; [congruence|]. split.
    + intros n w' Hn'. apply Hkeep.
      pose proof (from_preserves h (Some el) n w' Hn') as Hp.
      by rewrite Hfrom in Hp.
    + simpl. constructor; [by apply Hkeep|done].
Qed.

Lemma from_all_cached (els : list node) (h : heap) (ws : list wrapper) :
  Forall2 (λ el w, vmElement h !! el = Some w) els ws →
  from_all els h = (ws, h).
Proof.
  induction 1 as [|el w els ws Hw _ IH]; cbn [from_all]; [done|].
  by rewrite (from_cached _ _ _ Hw), IH.
Qed.

(** C6.  A node has one wrapper for as long as it lives: once
    [VMElement.from] has answered for a node, it gives the same wrapper
    after any further lookups and any changes of the tree; so
    [getElementById] called twice with one id returns the same wrapper, and
    a node reached by id and then as the [parentNode] of one of its children
    is the same wrapper too. *)
Theorem wrapper_identity (select : gmap node domnode → string → list node) :
  (∀ h h1 h2 n r,
     VMElement_from (Some n) h = (r, h1) → rtc heap_step h1 h2 →
     VMElement_from (Some n) h2 = (r, h2))
  ∧ (∀ h h1 id r,
       getElementById select id h = (r, h1) →
       getElementById select id h1 = (r, h1))
  ∧ (∀ h h1 id r n rest m,
       select (nodes h) ("#" +:+ id) = n :: rest → parent_of h m = Some n →
       getElementById select id h = (r, h1) →
       is_Some r ∧ get_parentNode m h1 = (r, h1)).
Proof.
  split; [|split].
  - intros h h1 h2 n r Hfrom Hsteps.
    destruct (from_sets _ _ _ _ Hfrom) as (w & -> & Hw).
    apply from_cached. by apply (steps_preserve h1).
  - intros h h1 id r. unfold getElementById, _query.
    destruct (from_all (select (nodes h) ("#" +:+ id)) h) as [ws h'] eqn:Hall.
    intros [= <- <-].
    destruct (from_all_spec _ _ _ _ Hall) as (Hnodes & _ & Hws).
    by rewrite Hnodes, (from_all_cached _ _ _ Hws).
  - intros h h1 id r n rest m Hsel Hparent. unfold getElementById, _query.
    rewrite Hsel.
    destruct (from_all (n :: rest) h) as [ws h'] eqn:Hall.
    intros [= <- <-].
    destruct (from_all_spec _ _ _ _ Hall) as (Hnodes & _ & Hws).
    apply Forall2_cons_inv_l in Hws as (w & ws' & Hw & _ & ->). simpl.
    split; [done|]. unfold get_parentNode, parent_of. rewrite Hnodes.
    fold (parent_of h m). rewrite Hparent. by apply from_cached.
Qed.

Lemma wrapper_identity_witness :
  ∃ h1,
    getElementById by_id "hall" hall_and_door = (Some 0, h1)
    ∧ getElementById by_id "hall" h1 = (Some 0, h1)
    ∧ get_parentNode 1 h1 = (Some 0, h1)
    ∧ VMElement_from (Some 0) (VMElement_from (Some 1) h1).2
      = (Some 0, (VMElement_from (Some 1) h1).2).
Proof.
  destruct (wrapper_identity by_id) as (Hlife & Htwice & Hnav).
  eexists. split; [reflexivity|].
  split; [apply (Htwice hall_and_door); reflexivity|].
  split; [apply (Hnav hall_and_door _ "hall" _ 0 [] 1); reflexivity|].
  match goal with
  | |- VMElement_from _ (VMElement_from _ ?h1).2 = _ =>
      apply (Hlife h1 h1); [reflexivity|apply rtc_once, step_from]
  end.
Defined.

(** Wrappers are fresh objects: in a well-formed store two nodes never
    receive the same wrapper, now or later. *)
Lemma from_wf (h : heap) (el : option node) :
  heap_wf h → heap_wf (VMElement_from el h).2.
Proof.
  intros [Hold Hinj]. destruct el as [k|]; [|done]. unfold VMElement_from.
  destruct (vmElement h !! k) as [w'|] eqn:Hk; [done|]. split; simpl.
  - intros n w Hn. apply lookup_insert_Some in Hn as [[_ <-]|[_ Hn]]; [lia|].
    apply Hold in Hn. lia.
  - intros n m w Hn Hm.
    apply lookup_insert_Some in Hn as [[<- <-]|[Hkn Hn]];
      apply lookup_insert_Some in Hm as [[Hkm Hw]|[Hkm Hm]]; subst; try done.
    + apply Hold in Hm. lia.
    + apply Hold in Hn. lia.
    + by apply (Hinj n m w).
Qed.

Lemma steps_wf (h h' : heap) : rtc heap_step h h' → heap_wf h → heap_wf h'.
Proof.
  induction 1 as [|h1 h2 h3 Hstep _ IH]; [done|].
  intros Hwf. apply IH. destruct Hstep; [by apply from_wf|done].
Qed.

Lemma wrappers_distinct (h h1 h2 h3 : heap) (n m : node) (w : wrapper) :
  heap_wf h →
  VMElement_from (Some n) h = (Some w, h1) → rtc heap_step h1 h2 →
  VMElement_from (Some m) h2 = (Some w, h3) →
  n = m.
Proof.
  intros Hwf Hn Hsteps Hm.
  destruct (from_sets _ _ _ _ Hn) as (w1 & [= <-] & Hw1).
  destruct (from_sets _ _ _ _ Hm) as (w2 & [= <-] & Hw2).
  assert (Hwf3 : heap_wf h3).
  { pose proof (from_wf h2 (Some m)) as H3. rewrite Hm in H3. apply H3.
    apply (steps_wf h1); [done|].
    pose proof (from_wf h (Some n) Hwf) as H1. by rewrite Hn in H1. }
  apply (proj2 Hwf3 n m w); [|done].
  pose proof (from_preserves h2 (Some m) n w (steps_preserve _ _ _ _ Hsteps Hw1)) as Hp.
  by rewrite Hm in Hp.
Qed.

(** C7.  [appendChild] raises when the child's node has a parent, and then
    the store is what it was: no node, no parent link and no child list has
    changed (the same holds for every raise of [appendChild]); it succeeds
    only for a child whose node has no parent. *)
Theorem appendChild_single_parent (e : node) (child : wrapper) (h : heap) :
  (∀ c p, ElementToCheerio h !! child = Some c → parent_of h c = Some p →
          appendChild e child h = (Throw (AlreadyHasParent child), h))
  ∧ (∀ err h', appendChild e child h = (Throw err, h') → h' = h)
  ∧ (∀ h', appendChild e child h = (Ok (), h') →
           ∃ c, ElementToCheerio h !! child = Some c ∧ parent_of h c = None).
Proof.
  unfold appendChild. split; [|split].
  - intros c p -> ->. done.
  - intros err h'. destruct (ElementToCheerio h !! child) as [c|]; [|by intros [= _ <-]].
    destruct (parent_of h c); [by intros [= _ <-]|done].
  - intros h'. destruct (ElementToCheerio h !! child) as [c|]; [|done].
    destruct (parent_of h c) eqn:Hp; [done|]. intros _. by exists c.
Qed.

Lemma appendChild_single_parent_witness :
  let h := (getElementById by_id "door" hall_and_door).2 in
  ElementToCheerio h !! 0 = Some 1
  ∧ parent_of h 1 = Some 0
  ∧ appendChild 0 0 h = (Throw (AlreadyHasParent 0), h).
Proof.
  split; [reflexivity|]. split; [reflexivity|].
  apply (appendChild_single_parent 0 0
           (getElementById by_id "door" hall_and_door).2) with (c := 1) (p := 0);
    reflexivity.
Defined.

End DomClaims.

(** ** Participants *)

Section ClientClaims.
Import Client Samples.

Lemma strict_eq_eq (a b : jsnum) : strict_eq a b = true → a = b.
Proof.
  destruct a as [|a], b as [|b]; simpl; try done.
  intros Heq. apply Z.eqb_eq in Heq. by subst.
Qed.

Lemma same_position_eq (p q : position) : same_position p q = true → p = q.
Proof.
  unfold same_position. intros Hsame.
  apply andb_prop in Hsame as [Hsame Hz]. apply andb_prop in Hsame as [Hx Hy].
  destruct p, q. simpl in *.
  by rewrite (strict_eq_eq _ _ Hx), (strict_eq_eq _ _ Hy), (strict_eq_eq _ _ Hz).
Qed.

Lemma merge_idem (p : position) (u : update) : merge (merge p u) u = merge p u.
Proof. unfold merge. simpl. by destruct (new_x u), (new_y u), (new_z u). Qed.

(** After [updateState] the position is the merged one, whichever branch
    was taken. *)
Lemma updateState_state (u : update) (c : MinimalClient) :
  state (updateState u c).1 = merge (state c) u.
Proof.
  unfold updateState. destruct (same_position _ _) eqn:Hsame; [|done].
  simpl. by apply same_position_eq.
Qed.

(** C8.  [updateState] lays the supplied fields over the current [x],
    [y], [z]; when the merged position equals the current one componentwise
    the client is left as it is and nothing is assigned; an update applied a
    second time leaves the client it produced the first time; and for a
    complete update of three numbers the second application assigns
    nothing. *)
Theorem updateState_suppresses_redundant (c : MinimalClient) (u : update) :
  (state (updateState u c).1
   = {| x := default (x (state c)) (new_x u);
        y := default (y (state c)) (new_y u);
        z := default (z (state c)) (new_z u) |})
  ∧ (same_position (state c) (merge (state c) u) = true →
     updateState u c = (c, false))
  ∧ (updateState u (updateState u c).1).1 = (updateState u c).1
  ∧ (∀ a b d, u = move_to a b d →
     updateState u (updateState u c).1 = ((updateState u c).1, false)).
Proof.
  split; [apply updateState_state|]. split; [|split].
  - intros Hsame. unfold updateState. by rewrite Hsame.
  - pose proof (updateState_state u c) as Hst.
    unfold updateState at 1.
    destruct (same_position _ _); [done|].
    rewrite Hst, merge_idem. simpl. destruct (updateState u c).1 as [id st].
    simpl in *. by subst.
  - intros a b d ->. pose proof (updateState_state (move_to a b d) c) as Hst.
    unfold updateState at 1. rewrite Hst.
    unfold same_position, merge. simpl. by rewrite !Z.eqb_refl.
Qed.

Lemma updateState_suppresses_redundant_witness :
  updateState (move_to 1 2 3) walker
  = ({| uuid := "u1"; state := {| x := Fin 1; y := Fin 2; z := Fin 3 |} |}, true)
  ∧ updateState (move_to 1 2 3) (updateState (move_to 1 2 3) walker).1
    = ((updateState (move_to 1 2 3) walker).1, false).
Proof.
  split; [reflexivity|].
  apply (updateState_suppresses_redundant walker (move_to 1 2 3)) with (a := 1%Z) (b := 2%Z) (d := 3%Z).
  reflexivity.
Defined.

End ClientClaims.

(** * Further properties of the code *)

(** ** More on the codec *)

Section CodecExtras.
Import Codec Wire.

Lemma omapM_ok_Forall2 {A B} (f : A → outcome B) (l : list A) (ws : list B) :
  omapM f l = Ok ws ↔ Forall2 (λ a w, f a = Ok w) l ws.
Proof.
  revert ws. induction l as [|a l IH]; intros ws; csimpl.
  - split; [intros [= <-]; constructor|by inversion 1].
  - destruct (f a) as [x|e] eqn:Hfa; csimpl.
    + destruct (omapM f l) as [xs|e] eqn:Hl; csimpl.
      * split.
        -- intros [= <-]. constructor; [done|]. by apply IH.
        -- inversion 1 as [|? w ? ws' Hw Hws]; subst.
           apply IH in Hws. congruence.
      * split; [done|]. inversion 1 as [|? w ? ws' Hw Hws]; subst.
        apply IH in Hws. congruence.
    + split; [done|]. inversion 1; congruence.
Qed.

Lemma omapM_total {A B} (f : A → outcome B) (l : list A) :
  Forall (λ a, ∃ w, f a = Ok w) l → ∃ ws, omapM f l = Ok ws.
Proof.
  induction 1 as [|a l [w Hw] _ [ws Hws]]; csimpl; [by eexists|].
  rewrite Hw, Hws. by eexists.
Qed.

(** The two call shapes of [RpcArguments.serialize] agree, except on a sole
    argument that is an array: that one is always read as the argument
    list, never as one positional argument. *)
Theorem serialize_call_shapes (args : list jsval) :
  (∀ l, args ≠ [JArr l]) →
  RpcArguments_serialize args = RpcArguments_serialize [JArr args].
Proof.
  intros Hshape. unfold RpcArguments_serialize.
  destruct args as [|a [|b args]]; [done| |by destruct a].
  destruct a; try done. by destruct (Hshape elems).
Qed.

Lemma serialize_call_shapes_witness :
  RpcArguments_serialize [JStr "Ada"; JArr [JNum (Fin 1)]]
  = RpcArguments_serialize [JArr [JStr "Ada"; JArr [JNum (Fin 1)]]].
Proof.
  apply (serialize_call_shapes [JStr "Ada"; JArr [JNum (Fin 1)]]).
  intros l. discriminate.
Defined.

Lemma args_payload_tagged (ws : list jsval) :
  forallb well_tagged ws = true →
  match args_payload ws with
  | JNull => true
  | JArr ws => forallb well_tagged ws
  | _ => false
  end = true.
Proof. by destruct ws. Qed.

Lemma args_payload_keys (ks : list string) :
  match args_payload (JStr <$> ks) with
  | JNull => true
  | JArr ks => forallb is_string ks
  | _ => false
  end = true.
Proof.
  destruct ks as [|k ks]; [done|]. csimpl.
  induction ks as [|k' ks IH]; [done|]. csimpl. exact IH.
Qed.

Lemma serialize_elements_tagged (l ws : list jsval) :
  Forall (λ v, ∀ w, RpcTypes_serialize v = Ok w → well_tagged w = true) l →
  omapM RpcTypes_serialize l = Ok ws → forallb well_tagged ws = true.
Proof.
  intros Hall Hser. apply omapM_ok_Forall2 in Hser.
  induction Hser as [|v w l ws Hv _ IH]; [done|].
  apply Forall_cons in Hall as [Hw Hall]. csimpl.
  rewrite (Hw _ Hv). by apply IH.
Qed.

Lemma serialize_tagged (v w : jsval) :
  RpcTypes_serialize v = Ok w → well_tagged w = true.
Proof.
  revert w.
  induction v as [| |b|n|s|f|x y z IHx IHy IHz|l IH|k props IH]
    using jsval_nested_ind; intros w.
  - by intros [= <-].
  - by intros [= <-].
  - simpl. unfold nameFor. simpl. destruct b; by intros [= <-].
  - simpl. unfold nameFor. destruct (truthy (JNum n)); by intros [= <-].
  - simpl. unfold nameFor. destruct (truthy (JStr s)); by intros [= <-].
  - by intros [= <-].
  - change (RpcTypes_serialize (JVec3 x y z))
      with (ws ←! omapM RpcTypes_serialize [x; y; z];
            Ok (JArr [JStr "v3"; args_payload ws])).
    destruct (omapM RpcTypes_serialize [x; y; z]) as [ws|] eqn:Hws; [|done].
    intros [= <-].
    apply serialize_elements_tagged in Hws; [|by repeat constructor].
    apply (args_payload_tagged ws Hws).
  - simpl. destruct (omapM RpcTypes_serialize l) as [ws|] eqn:Hws; [|done].
    intros [= <-]. apply serialize_elements_tagged in Hws; [|done].
    apply (args_payload_tagged ws Hws).
  - simpl. rewrite omapM_snd_eq.
    destruct (omapM RpcTypes_serialize props.*2) as [vs|] eqn:Hvs; [|done].
    intros [= <-]. apply serialize_elements_tagged in Hvs; [|by apply Forall_fmap].
    change (well_tagged (JArr [JStr "o"; args_payload (JStr <$> props.*1); args_payload vs]))
      with (match args_payload (JStr <$> props.*1) with
            | JNull => true
            | JArr ks => forallb is_string ks
            | _ => false
            end
            && match args_payload vs with
               | JNull => true
               | JArr ws => forallb well_tagged ws
               | _ => false
               end).
    apply andb_true_intro.
    split; [exact (args_payload_keys _)|exact (args_payload_tagged vs Hvs)].
Qed.

Lemma serialize_arguments_shape (arguments : list jsval) (w : jsval) :
  RpcArguments_serialize arguments = Ok w →
  w = JNull ∨ ∃ ws, w = JArr ws ∧ ws ≠ [] ∧ forallb well_tagged ws = true.
Proof.
  unfold RpcArguments_serialize.
  set (args := match arguments with [JArr l] => l | _ => arguments end).
  destruct (decide (length args = 0)) as [|Hlen]; [intros [= <-]; by left|].
  destruct (omapM RpcTypes_serialize args) as [ws|] eqn:Hws; [|done].
  intros [= <-]. right. exists ws. split; [done|]. split.
  - intros ->. apply omapM_length in Hws. simpl in Hws. lia.
  - apply (serialize_elements_tagged args); [|done].
    apply Forall_forall. intros v _ w. apply serialize_tagged.
Qed.

(** The wire of an argument list: whatever [RpcArguments.serialize]
    returns is the absence sentinel or a non-empty array of well-tagged
    values.  No vector and no object is ever put on the wire, and every
    array on it opens with its tag. *)
Theorem serialize_wire_shape (arguments : list jsval) (w : jsval) :
  RpcArguments_serialize arguments = Ok w →
  w = JNull ∨ ∃ ws, w = JArr ws ∧ ws ≠ [] ∧ forallb well_tagged ws = true.
Proof. apply serialize_arguments_shape. Qed.

Lemma serialize_wire_shape_witness :
  let arguments := [JVec3 (JNum (Fin 1)) JUndefined (JNum (Fin 3));
                    JObj (Instance "Door") [("open", JFun "open"); ("hinges", JArr [])]] in
  let w := JArr [JArr [JStr "v3"; JArr [JNum (Fin 1); JUndefined; JNum (Fin 3)]];
                 JArr [JStr "o"; JArr [JStr "open"; JStr "hinges"];
                       JArr [JFun "open"; JArr [JStr "a"; JNull]]]] in
  RpcArguments_serialize arguments = Ok w
  ∧ (w = JNull ∨ ∃ ws, w = JArr ws ∧ ws ≠ [] ∧ forallb well_tagged ws = true).
Proof.
  intros arguments w. split; [reflexivity|].
  apply (serialize_wire_shape arguments w). reflexivity.
Defined.

Lemma string_keys_reduce (ks vals : list jsval) (index : nat)
    (obj : list (string * jsval)) :
  forallb is_string ks = true → ∃ props, obj_reduce ks vals index obj = Ok props.
Proof.
  revert index obj. induction ks as [|k ks IH]; intros index obj Hks; csimpl.
  - by eexists.
  - csimpl in Hks. apply andb_prop in Hks as [Hk Hks].
    destruct k; try done. simpl. by apply IH.
Qed.

Lemma read_strings (ks : list jsval) :
  forallb is_string ks = true → omapM read_rawArg ks = Ok ks.
Proof.
  induction ks as [|k ks IH]; intros Hks; csimpl; [done|].
  csimpl in Hks. apply andb_prop in Hks as [Hk Hks].
  destruct k; try done. simpl. by rewrite IH.
Qed.

(** The decoder accepts every well-tagged wire value, and with it every
    payload of such values. *)
Lemma read_tagged (w : jsval) :
  (well_tagged w = true → ∃ v, read_rawArg w = Ok v)
  ∧ (∀ ws, w = JArr ws → forallb well_tagged ws = true →
           ∃ vs, omapM read_rawArg ws = Ok vs).
Proof.
  induction w as [| |b|n|s|f|x y z _ _ _|l IH|k props _]
    using jsval_nested_ind; try (split; [by eexists|done]); try done.
  assert (Hpayload : ∀ ws, forallb well_tagged ws = true →
                           Forall (λ w, well_tagged w = true → ∃ v, read_rawArg w = Ok v) ws →
                           ∃ vs, omapM read_rawArg ws = Ok vs).
  { intros ws Hws Hall. apply omapM_total.
    induction Hall as [|w ws Hw _ IHws]; [done|].
    csimpl in Hws. apply andb_prop in Hws as [Hw' Hws].
    constructor; [by apply Hw|by apply IHws]. }
  split.
  2:{ intros ws [= <-] Hws. apply Hpayload; [done|].
      eapply Forall_impl; [exact IH|]. by intros w [Hw _]. }
  intros Htag. rewrite read_rawArg_eq.
  destruct l as [|tag [|p [|pv [|? ?]]]]; try done.
  - (* one payload *)
    apply Forall_cons in IH as [_ IH]. apply Forall_cons in IH as [[_ Hp] _].
    simpl in Htag. apply andb_prop in Htag as [Htag Hpay].
    assert (Hread : ∃ vs, RpcArguments_read p = Ok vs).
    { destruct p; try done; [by eexists|].
      unfold RpcArguments_read. simpl. by apply Hp. }
    destruct Hread as [vs Hvs].
    unfold RpcTypes_read. simpl. change (idx [p] 0) with p. rewrite Hvs. simpl.
    change (idx [tag; p] 0) with tag.
    destruct (is_tag tag "a"); [by eexists|].
    simpl in Htag. destruct tag as [| | | |t| | | |]; try done.
    simpl in Htag. apply String.eqb_eq in Htag as ->. by eexists.
  - (* keys and values *)
    apply Forall_cons in IH as [_ IH]. apply Forall_cons in IH as [_ IH].
    apply Forall_cons in IH as [[_ Hpv] _].
    simpl in Htag. apply andb_prop in Htag as [Htag Hpay].
    apply andb_prop in Htag as [Htag Hkeys].
    assert (Hk : ∃ ks, RpcArguments_read p = Ok ks ∧ forallb is_string ks = true).
    { destruct p; try done; [by exists []|].
      exists elems. split; [|done]. unfold RpcArguments_read. simpl.
      by apply read_strings. }
    assert (Hv : ∃ vs, RpcArguments_read pv = Ok vs).
    { destruct pv; try done; [by eexists|].
      unfold RpcArguments_read. simpl. by apply Hpv. }
    destruct Hk as (ks & Hks & Hstr), Hv as [vs Hvs].
    destruct (string_keys_reduce ks vs 0 [] Hstr) as [obj Hobj].
    unfold RpcTypes_read. simpl.
    change (idx [p; pv] 0) with p. change (idx [p; pv] 1) with pv.
    change (idx [tag; p; pv] 0) with tag.
    destruct tag as [| | | |t| | | |]; try done.
    simpl in Htag. apply String.eqb_eq in Htag as ->. simpl.
    rewrite Hks, Hvs. simpl. rewrite Hobj. by eexists.
Qed.

(** Whatever [RpcArguments.serialize] returns, [RpcArguments.read] accepts:
    the decoder raises on no wire the encoder has made, whatever the
    arguments were, functions and instances of classes included. *)
Theorem read_accepts_serialized (arguments : list jsval) (w : jsval) :
  RpcArguments_serialize arguments = Ok w →
  ∃ vs, RpcArguments_read w = Ok vs.
Proof.
  intros Hw.
  destruct (serialize_arguments_shape arguments w Hw) as [->|(ws & -> & _ & Hws)].
  - by eexists.
  - simpl. by apply (proj2 (read_tagged (JArr ws)) ws).
Qed.

Lemma read_accepts_serialized_witness :
  let arguments := [JFun "greet";
                    JObj (Instance "Door") [("open", JFun "open"); ("hinges", JArr [])]] in
  let w := JArr [JFun "greet";
                 JArr [JStr "o"; JArr [JStr "open"; JStr "hinges"];
                       JArr [JFun "open"; JArr [JStr "a"; JNull]]]] in
  RpcArguments_serialize arguments = Ok w
  ∧ ∃ vs, RpcArguments_read w = Ok vs.
Proof.
  intros arguments w. split; [reflexivity|].
  apply (read_accepts_serialized arguments w). reflexivity.
Defined.

(** Objects under construction in the decoder: distinct keys, none of
    them ["__proto__"], representable values. *)
Lemma representable_object (props : list (string * jsval)) :
  representable (JObj Plain props) = true ↔
  NoDup props.*1
  ∧ Forall (λ p, p.1 ≠ "__proto__") props
  ∧ Forall (λ p, representable p.2 = true) props.
Proof.
  simpl. rewrite !andb_true_iff, bool_decide_eq_true.
  assert (H1 : forallb (λ p : string * jsval, negb (String.eqb p.1 "__proto__")) props = true
               ↔ Forall (λ p, p.1 ≠ "__proto__") props).
  { induction props as [|p props IH]; csimpl; [by split; [constructor|]|].
    by rewrite andb_true_iff, Forall_cons, IH, negb_true_iff, String.eqb_neq. }
  assert (H2 : forallb (λ p : string * jsval, representable p.2) props = true
               ↔ Forall (λ p, representable p.2 = true) props).
  { clear H1. induction props as [|p props IH]; cbn [forallb]; [by split; [constructor|]|].
    by rewrite andb_true_iff, Forall_cons, IH. }
  rewrite H1, H2. tauto.
Qed.

Lemma set_existing_spec key val props :
  match set_existing key val props with
  | Some props' =>
      props'.*1 = props.*1
      ∧ (Forall (λ p, representable p.2 = true) props → representable val = true →
         Forall (λ p, representable p.2 = true) props')
  | None => key ∉ props.*1
  end.
Proof.
  induction props as [|[k v] props IH]; csimpl; [apply not_elem_of_nil|].
  destruct (String.eqb_spec k key) as [->|Hne].
  - split; [done|]. intros Hall Hval. apply Forall_cons in Hall as [_ Hall].
    by constructor.
  - destruct (set_existing key val props) as [props'|]; csimpl.
    + destruct IH as [Hkeys Hvals]. split; [by rewrite Hkeys|].
      intros Hall Hval. apply Forall_cons in Hall as [Hv Hall].
      constructor; [done|by apply Hvals].
    + apply not_elem_of_cons. by split.
Qed.

Lemma set_prop_representable key val props :
  representable (JObj Plain props) = true → representable val = true →
  representable (JObj Plain (set_prop key val props)) = true.
Proof.
  rewrite !representable_object. intros (Hnd & Hproto & Hvals) Hval.
  unfold set_prop. destruct (String.eqb_spec key "__proto__") as [|Hkey]; [done|].
  pose proof (set_existing_spec key val props) as Hset.
  destruct (set_existing key val props) as [props'|]; simpl.
  - destruct Hset as [Hkeys Hvals']. split; [by rewrite Hkeys|]. split; [|by apply Hvals'].
    clear -Hkeys Hproto. revert props Hkeys Hproto.
    induction props' as [|p' props' IH]; intros [|p props] Hkeys Hproto; try done.
    csimpl in Hkeys. injection Hkeys as Hp Hkeys.
    apply Forall_cons in Hproto as [Hp' Hproto].
    constructor; [congruence|by apply (IH props)].
  - split; [|split].
    + rewrite fmap_app. apply NoDup_app. split; [done|]. split; [|apply NoDup_singleton].
      intros k Hk Hk'. apply list_elem_of_singleton in Hk'. by subst.
    + apply Forall_app. split; [done|]. by repeat constructor.
    + apply Forall_app. split; [done|]. by repeat constructor.
Qed.

Lemma idx_representable (vals : list jsval) (i : nat) :
  forallb representable vals = true → representable (idx vals i) = true.
Proof.
  intros Hvals. unfold idx. destruct (vals !! i) as [v|] eqn:Hv; [|done]. simpl.
  revert i Hv. induction vals as [|a vals IH]; intros i Hv; [done|].
  csimpl in Hvals. apply andb_prop in Hvals as [Ha Hvals].
  destruct i as [|i]; simpl in Hv; [by injection Hv as <-|by apply (IH Hvals i)].
Qed.

Lemma obj_reduce_representable (keys vals : list jsval) (index : nat)
    (obj props : list (string * jsval)) :
  forallb representable vals = true →
  representable (JObj Plain obj) = true →
  obj_reduce keys vals index obj = Ok props →
  representable (JObj Plain props) = true.
Proof.
  intros Hvals. revert index obj.
  induction keys as [|key keys IH]; intros index obj Hobj; cbn [obj_reduce].
  - by intros [= <-].
  - destruct (ToPropertyKey key) as [k|]; [|done]. cbn [obind].
    apply IH. apply set_prop_representable; [done|]. by apply idx_representable.
Qed.

Lemma Vector3_new_representable (x y z : jsval) :
  representable x = true → representable y = true → representable z = true →
  representable (Vector3_new x y z) = true.
Proof.
  intros Hx Hy Hz. unfold Vector3_new. cbn [representable].
  assert (Hdflt : ∀ v, representable v = true →
            defined (match v with JUndefined => JNum (Fin 0) | _ => v end) = true
            ∧ representable (match v with JUndefined => JNum (Fin 0) | _ => v end) = true).
  { intros v Hv. by destruct v. }
  destruct (Hdflt x Hx) as [-> ->], (Hdflt y Hy) as [-> ->], (Hdflt z Hz) as [-> ->].
  done.
Qed.

(** The decoder makes representable values out of a sound wire value, and
    out of every payload of such values. *)
Lemma read_sound (w : jsval) :
  (sound_wire w = true → ∀ v, read_rawArg w = Ok v → representable v = true)
  ∧ (∀ ws, w = JArr ws → forallb sound_wire ws = true →
           ∀ vs, omapM read_rawArg ws = Ok vs → forallb representable vs = true).
Proof.
  induction w as [| |b|n|s|f|x y z _ _ _|l IH|k props _]
    using jsval_nested_ind;
    try (split; [by intros Hw v [= <-]|done]).
  assert (Helems : ∀ ws, forallb sound_wire ws = true →
            Forall (λ w, sound_wire w = true →
                         ∀ v, read_rawArg w = Ok v → representable v = true) ws →
            ∀ vs, omapM read_rawArg ws = Ok vs → forallb representable vs = true).
  { intros ws Hws Hall vs Hvs. apply omapM_ok_Forall2 in Hvs.
    induction Hvs as [|w v ws vs Hv _ IHvs]; [done|].
    csimpl in Hws. apply andb_prop in Hws as [Hw Hws].
    apply Forall_cons in Hall as [Hw' Hall]. csimpl.
    rewrite (Hw' Hw v Hv). by apply IHvs. }
  assert (Hfirst : Forall (λ w, sound_wire w = true →
                     ∀ v, read_rawArg w = Ok v → representable v = true) l).
  { eapply Forall_impl; [exact IH|]. by intros w [Hw _]. }
  split; [|by intros ws [= <-] Hws; apply Helems].
  intros Hl v. cbn [sound_wire] in Hl.
  assert (Hpayload : ∀ i vs, RpcArguments_read (idx (tail l) i) = Ok vs →
                             forallb representable vs = true).
  { intros i vs. unfold idx.
    destruct (tail l !! i) as [p|] eqn:Hp; simpl; [|by intros [= <-]].
    assert (Hin : p ∈ l).
    { destruct l as [|a l]; [done|]. right. by eapply list_elem_of_lookup_2. }
    rewrite Forall_forall in IH. destruct (IH p Hin) as [_ Hp2].
    assert (Hsound : sound_wire p = true).
    { apply forallb_forall with (x := p) in Hl; [done|]. by apply list_elem_of_In. }
    unfold RpcArguments_read. destruct (truthy p); simpl; [|by intros [= <-]].
    destruct p; try done. by apply Hp2. }
  rewrite read_rawArg_eq. unfold RpcTypes_read.
  destruct (is_tag (idx l 0) "a").
  { destruct (RpcArguments_read (idx (tail l) 0)) as [vs|] eqn:Hvs; [|done].
    intros [= <-]. exact (Hpayload 0 vs Hvs). }
  destruct (is_tag (idx l 0) "o").
  { destruct (RpcArguments_read (idx (tail l) 0)) as [ks|] eqn:Hks; [|done].
    destruct (RpcArguments_read (idx (tail l) 1)) as [vs|] eqn:Hvs; [|done].
    cbn [obind]. destruct (obj_reduce ks vs 0 []) as [obj|] eqn:Hobj; [|done].
    intros [= <-].
    by apply (obj_reduce_representable ks vs 0 [] obj (Hpayload 1 vs Hvs)). }
  destruct (is_tag (idx l 0) "v3"); [|done].
  destruct (RpcArguments_read (idx (tail l) 0)) as [vs|] eqn:Hvs; [|done].
  intros [= <-].
  apply Vector3_new_representable; apply idx_representable, (Hpayload 0 vs Hvs).
Qed.

(** Representable argument lists survive the round trip (the helper form
    used for decoded lists). *)
Lemma representable_args_roundtrip (args : list jsval) :
  forallb representable args = true →
  (w ←! RpcArguments_serialize [JArr args]; RpcArguments_read w) = Ok args.
Proof.
  intros Hrep. rewrite RpcArguments_serialize_array.
  destruct (roundtrip_elements args) as (ws & -> & Hread); [|done|].
  { apply Forall_forall. intros v _. apply roundtrip_value. }
  simpl. by apply args_payload_read.
Qed.



End CodecExtras.

(** ** More on rate limiting *)

Section LimiterExtras.
Import Limiter Registry PlainObject.

(** For any [maxRate]: in the window a call at [t0] opens, the call that
    brings the count to [i + 2] is admitted exactly when [i + 2 <= maxRate];
    once a call is denied, every later call of the window is denied; and
    denied calls are counted like admitted ones. *)
Theorem window_admits_up_to_maxRate (l : GlobalRateLimiter) (t0 : Z) (ts : list Z) :
  fresh_window t0 l = true →
  t0 ≠ 0%Z →
  Forall (λ t, t - t0 ≤ 1000)%Z ts →
  ∃ l0 bs l1,
    allows t0 l = (true, l0)
    ∧ allows_all ts l0 = (bs, l1)
    ∧ (∀ i, i < length ts →
            bs !! i = Some (bool_decide (Z.of_nat i + 2 ≤ maxRate (config l))%Z))
    ∧ (∀ i j, i ≤ j → j < length ts → bs !! i = Some false → bs !! j = Some false)
    ∧ last l1 = Some t0
    ∧ calls l1 = (1 + Z.of_nat (length ts))%Z.
Proof.
  intros Hfresh Ht0 Hts.
  pose proof (allows_all_inside (config l) t0 ts 0 Ht0 Hts) as Hin.
  change (1 + Z.of_nat 0)%Z with 1%Z in Hin.
  assert (Hbs : ∀ i, i < length ts →
            ((λ i, bool_decide (Z.of_nat i + 2 ≤ maxRate (config l))%Z)
               <$> seq 0 (length ts)) !! i
            = Some (bool_decide (Z.of_nat i + 2 ≤ maxRate (config l))%Z)).
  { intros i Hi. rewrite list_lookup_fmap, lookup_seq_lt by done. done. }
  eexists _, _, _. split; [|split; [exact Hin|]].
  { unfold allows. by rewrite Hfresh. }
  split; [exact Hbs|]. split; [|by split].
  intros i j Hij Hj. rewrite !Hbs by lia.
  intros [= Hi]. f_equal. apply bool_decide_eq_false in Hi.
  apply bool_decide_eq_false. lia.
Qed.

Lemma window_admits_up_to_maxRate_witness :
  ∃ l0 bs l1,
    allows 10 (GlobalRateLimiter_new {| maxRate := 2; unreliable := true |}) = (true, l0)
    ∧ allows_all [10; 500; 1010]%Z l0 = (bs, l1)
    ∧ (∀ i, i < 3 → bs !! i = Some (bool_decide (Z.of_nat i + 2 ≤ 2)%Z))
    ∧ (∀ i j, i ≤ j → j < 3 → bs !! i = Some false → bs !! j = Some false)
    ∧ last l1 = Some 10%Z
    ∧ calls l1 = 4%Z.
Proof.
  apply (window_admits_up_to_maxRate
           (GlobalRateLimiter_new {| maxRate := 2; unreliable := true |}) 10
           [10; 500; 1010]%Z);
    [reflexivity | lia | repeat constructor; lia].
Defined.

Lemma user_allows_other (now : Z) (a b : string) (p : PerUserRateLimiter) :
  a ≠ b →
  clients (user_allows now a p).2 !! b = clients p !! b
  ∧ user_config (user_allows now a p).2 = user_config p.
Proof.
  intros Hab. unfold user_allows.
  destruct (allows now _) as [r l']. simpl. by rewrite lookup_insert_ne.
Qed.

Lemma user_allows_all_other (a b : string) (nows : list Z) (p : PerUserRateLimiter) :
  a ≠ b →
  clients (user_allows_all a nows p).2 !! b = clients p !! b
  ∧ user_config (user_allows_all a nows p).2 = user_config p.
Proof.
  intros Hab. revert p. induction nows as [|now nows IH]; intros p; [done|].
  cbn [user_allows_all].
  destruct (user_allows now a p) as [r p1] eqn:Hp1.
  destruct (user_allows_all a nows p1) as [rs p2] eqn:Hp2. simpl.
  pose proof (IH p1) as [Hc Hu]. rewrite Hp2 in Hc, Hu. simpl in Hc, Hu.
  pose proof (user_allows_other now a b p Hab) as [Hc1 Hu1].
  rewrite Hp1 in Hc1, Hu1. simpl in Hc1, Hu1. split; congruence.
Qed.

(** Callers do not share a window: whatever calls one sender has made,
    admitted or denied, another sender's limiter state and the answer to
    its next call are what they would have been without them.  The two
    identities are names a plain object does not inherit. *)
Theorem callers_are_independent (a b : string) (nows : list Z) (now : Z)
    (p : PerUserRateLimiter) :
  inherited_name a = false → inherited_name b = false →
  a ≠ b →
  clients (user_allows_all a nows p).2 !! b = clients p !! b
  ∧ (user_allows now b (user_allows_all a nows p).2).1 = (user_allows now b p).1.
Proof.
  intros _ _ Hab. destruct (user_allows_all_other a b nows p Hab) as [Hc Hu].
  split; [done|]. unfold user_allows. rewrite Hc, Hu.
  by destruct (allows now _).
Qed.

Lemma callers_are_independent_witness :
  let p := PerUserRateLimiter_new {| maxRate := 1; unreliable := false |} in
  (user_allows_all "a" [5; 6; 7]%Z p).1 = [true; false; false]
  ∧ clients (user_allows_all "a" [5; 6; 7]%Z p).2 !! "b" = clients p !! "b"
  ∧ (user_allows 8 "b" (user_allows_all "a" [5; 6; 7]%Z p).2).1
    = (user_allows 8 "b" p).1.
Proof.
  split; [reflexivity|].
  apply (callers_are_independent "a" "b" [5; 6; 7]%Z 8
           (PerUserRateLimiter_new {| maxRate := 1; unreliable := false |}));
    [reflexivity | reflexivity | discriminate].
Defined.

End LimiterExtras.

(** ** Registration *)

Section RegistryExtras.
Import Limiter Text Rpc Registry Wire PlainObject.

Lemma registeredFunction_register {V : Type} (src : surface) (key : string)
    (config : rpcConfig) (f : string) (g : VMGlobal V) :
  registeredFunction (register src key config f g) (surface_type src) key
  = Some {| info_config := config;
            limiter := PerUserRateLimiter_new config;
            callable := f |}
  ∧ (∀ k, k ≠ key →
          registeredFunction (register src key config f g) (surface_type src) k
          = registeredFunction g (surface_type src) k)
  ∧ (∀ src' k, src' ≠ src →
               registeredFunction (register src key config f g) (surface_type src') k
               = registeredFunction g (surface_type src') k).
Proof.
  unfold registeredFunction, register. split; [|split].
  - destruct src; simpl; by rewrite lookup_insert_eq.
  - intros k Hk. destruct src; simpl; by rewrite lookup_insert_ne.
  - intros src' k Hsrc. by destruct src, src'.
Qed.

(** The call shapes of [open] for a function named [f]: the function alone
    is registered under its own name; a name and the function under the
    name; anything that is no string and the function under the function's
    name, with the default configuration, so options passed in this shape
    are dropped; and only the full shape, name, options and function, uses
    the options.  The names are not empty and not ["__proto__"]. *)
Theorem open_call_shapes {V : Type} (src : surface) (g : VMGlobal V) (f key : string)
    (other opts : jsval) (config : rpcConfig) :
  f ≠ "" → key ≠ "" → f ≠ "__proto__" → key ≠ "__proto__" →
  is_string other = false →
  _buildConfig opts = Some config →
  open src (JFun f) JUndefined JUndefined g
  = Registered (register src f default_config f g) (src, f)
  ∧ open src (JStr key) (JFun f) JUndefined g
    = Registered (register src key default_config f g) (src, key)
  ∧ open src other (JFun f) JUndefined g
    = Registered (register src f default_config f g) (src, f)
  ∧ open src (JStr key) opts (JFun f) g
    = Registered (register src key config f g) (src, key).
Proof.
  intros Hf Hkey Hfp Hkeyp Hother Hopts.
  apply String.eqb_neq in Hf, Hkey, Hfp, Hkeyp.
  unfold open, open_shape. simpl. rewrite Hother. simpl.
  by rewrite Hf, Hkey, Hfp, Hkeyp, Hopts.
Qed.

Lemma open_call_shapes_witness :
  let limited := JObj Plain [("maxRate", JNum (Fin 1))] in
  open Server (JFun "greet") JUndefined JUndefined Samples.room
  = Registered (register Server "greet" default_config "greet" Samples.room)
      (Server, "greet")
  ∧ open Server (JStr "hello") (JFun "greet") JUndefined Samples.room
    = Registered (register Server "hello" default_config "greet" Samples.room)
        (Server, "hello")
  ∧ open Server limited (JFun "greet") JUndefined Samples.room
    = Registered (register Server "greet" default_config "greet" Samples.room)
        (Server, "greet")
  ∧ open Server (JStr "hello") limited (JFun "greet") Samples.room
    = Registered (register Server "hello" {| maxRate := 1; unreliable := false |}
                    "greet" Samples.room) (Server, "hello").
Proof.
  intros limited.
  apply (open_call_shapes Server Samples.room "greet" "hello" limited limited
           {| maxRate := 1; unreliable := false |});
    [discriminate | discriminate | discriminate | discriminate
     | reflexivity | reflexivity].
Defined.

Lemma open_inv {V : Type} (src : surface) (name opts fn : jsval) (g g' : VMGlobal V)
    (inv : surface * string) :
  open src name opts fn g = Registered g' inv →
  ∃ key config f opts',
    inv = (src, key) ∧ (key ≠ "" ∧ key ≠ "__proto__")
    ∧ g' = register src key config f g
    ∧ _buildConfig opts' = Some config
    ∧ (truthy fn = false → opts' = JUndefined)
    ∧ (truthy fn = true → opts' = opts ∧ name = JStr key ∧ fn = JFun f).
Proof.
  unfold open.
  destruct (open_shape name opts fn) as [[[name' opts'] fn']|] eqn:Hshape; [|done].
  destruct name' as [| | | |key| | | |]; try done.
  destruct (String.eqb_spec key "") as [|Hkey]; [done|].
  destruct (String.eqb_spec key "__proto__") as [|Hproto]; [done|].
  destruct (_buildConfig opts') as [config|] eqn:Hconfig; [|done].
  destruct fn' as [| | | | |f| | |]; try done.
  intros [= <- <-]. exists key, config, f, opts'.
  split; [done|]. split; [done|]. split; [done|]. split; [done|].
  unfold open_shape in Hshape.
  destruct (truthy fn) eqn:Hfn; simpl in Hshape.
  - injection Hshape as <- <- <-. by split.
  - split; [intros _|done].
    destruct (truthy opts); simpl in Hshape.
    + destruct (is_string name); simpl in Hshape; [by injection Hshape|].
      destruct (name_of opts); simpl in Hshape; [by injection Hshape|done].
    + destruct (name_of name); simpl in Hshape; [by injection Hshape|done].
Qed.

(** What a successful [open] leaves behind: the entry is found under a
    name that is neither empty nor ["__proto__"], on the surface it was
    opened from, with a fresh limiter
    (so registering a name again forgets every caller's window), every
    other name and the other surface are as before, and with an empty [fn]
    slot the configuration is the default one. *)
Theorem open_registers {V : Type} (src : surface) (name opts fn : jsval) (g g' : VMGlobal V)
    (inv : surface * string) :
  open src name opts fn g = Registered g' inv →
  ∃ key config f,
    inv = (src, key) ∧ (key ≠ "" ∧ key ≠ "__proto__")
    ∧ registeredFunction g' (surface_type src) key
      = Some {| info_config := config;
                limiter := PerUserRateLimiter_new config;
                callable := f |}
    ∧ (∀ k, k ≠ key →
            registeredFunction g' (surface_type src) k
            = registeredFunction g (surface_type src) k)
    ∧ (∀ src' k, src' ≠ src →
                 registeredFunction g' (surface_type src') k
                 = registeredFunction g (surface_type src') k)
    ∧ _vm g' = _vm g
    ∧ (truthy fn = false → config = default_config).
Proof.
  intros Hopen.
  destruct (open_inv _ _ _ _ _ _ _ Hopen)
    as (key & config & f & opts' & -> & Hkey & -> & Hconfig & Hdefault & _).
  exists key, config, f. split; [done|]. split; [done|]. split; [|split; [|split; [|split]]].
  - apply registeredFunction_register.
  - apply registeredFunction_register.
  - apply registeredFunction_register.
  - by destruct src.
  - intros Hfn. rewrite (Hdefault Hfn) in Hconfig. by injection Hconfig.
Qed.

Lemma open_registers_witness :
  let limited := JObj Plain [("maxRate", JNum (Fin 1))] in
  let config := {| maxRate := 1; unreliable := false |} in
  ∃ key config' f,
    (Server, "hello") = (Server, key) ∧ (key ≠ "" ∧ key ≠ "__proto__")
    ∧ registeredFunction (register Server "hello" config "greet" Samples.room)
        (surface_type Server) key
      = Some {| info_config := config';
                limiter := PerUserRateLimiter_new config';
                callable := f |}
    ∧ (∀ k, k ≠ key →
            registeredFunction (register Server "hello" config "greet" Samples.room)
              (surface_type Server) k
            = registeredFunction Samples.room (surface_type Server) k)
    ∧ (∀ src' k, src' ≠ Server →
                 registeredFunction (register Server "hello" config "greet" Samples.room)
                   (surface_type src') k
                 = registeredFunction Samples.room (surface_type src') k)
    ∧ _vm (register Server "hello" config "greet" Samples.room) = _vm Samples.room
    ∧ (truthy (JFun "greet") = false → config' = default_config).
Proof.
  intros limited config.
  apply (open_registers Server (JStr "hello") limited (JFun "greet") Samples.room).
  reflexivity.
Defined.

(** [open] raises when no name string is at hand: a name without a
    function, an anonymous function on its own or after a value that is no
    string, no argument at all, a name that is no string next to a
    function, and the empty name. *)
Theorem open_without_name {V : Type} (src : surface) (g : VMGlobal V) :
  (∀ k, open src (JStr k) JUndefined JUndefined g = NameError JUndefined)
  ∧ open src (JFun "") JUndefined JUndefined g = NameError (JStr "")
  ∧ (∀ other, is_string other = false →
              open src other (JFun "") JUndefined g = NameError (JStr ""))
  ∧ open src JUndefined JUndefined JUndefined g = NoNameOf
  ∧ (∀ name opts fn, truthy fn = true → is_string name = false →
                     open src name opts fn g = NameError name)
  ∧ (∀ opts fn, truthy fn = true ∨ truthy opts = true →
                open src (JStr "") opts fn g = NameError (JStr "")).
Proof.
  split; [done|]. split; [done|]. split; [|split; [done|split]].
  - intros other Hother. unfold open, open_shape. simpl. by rewrite Hother.
  - intros name opts fn Hfn Hname. unfold open, open_shape. rewrite Hfn. simpl.
    by destruct name.
  - intros opts fn [Hfn|Hopts]; unfold open, open_shape.
    + by rewrite Hfn.
    + destruct (truthy fn); [done|]. simpl. by rewrite Hopts.
Qed.

(** The invoker [server.open] returns cannot call the function: what
    [VMServer.run] finds under the name is the registry entry, which has no
    [apply], so the call raises a [TypeError], as it does for every name
    that is neither registered nor inherited. *)
Theorem server_invoker_raises {V : Type} (name opts fn : jsval) (g g' : VMGlobal V)
    (key : string) :
  open Server name opts fn g = Registered g' (Server, key) →
  (∀ args, VMServer_run key args g'
           = Some (Throw (TypeError "fn.apply is not a function")))
  ∧ (∀ k args, inherited_name k = false →
               ∃ msg, VMServer_run k args g' = Some (Throw (TypeError msg))).
Proof.
  intros Hopen.
  destruct (open_inv _ _ _ _ _ _ _ Hopen)
    as (key' & config & f & opts' & [= <-] & _ & -> & _).
  split.
  - intros args. unfold VMServer_run. simpl. by rewrite lookup_insert_eq.
  - intros k args Hk. unfold VMServer_run. rewrite Hk.
    destruct (_ !! k); by eexists.
Qed.

Lemma server_invoker_raises_witness :
  (∀ args, VMServer_run "greet" args
             (register Server "greet" default_config "greet" Samples.room)
           = Some (Throw (TypeError "fn.apply is not a function")))
  ∧ (∀ k args, inherited_name k = false →
       ∃ msg,
         VMServer_run k args (register Server "greet" default_config "greet" Samples.room)
         = Some (Throw (TypeError msg))).
Proof.
  apply (server_invoker_raises (JFun "greet") JUndefined JUndefined Samples.room).
  reflexivity.
Defined.

(** One admitted or denied call to a registered server function whose
    arguments decode, with the sandbox in place. *)
Lemma invoke_registered {V : Type} (vm_run : string → V → option thrown * V)
    (now : Z) (uuid : string) (c : rpc_call) (g : VMGlobal V) (info : rpcInfo)
    (vm : V) (text : string) :
  on c = "server" → server g !! fn c = Some info → _vm g = Some vm →
  readArgsToString (args c) = Ok text →
  ∃ res g' tr info' vm',
    invoke vm_run now uuid c g = (res, g', tr)
    ∧ vm_runs tr = (if (user_allows now uuid (limiter info)).1 then 1 else 0)
    ∧ ((∀ call vm0, (vm_run call vm0).1 ≠ Some ThrownNullish) → res = Ok ())
    ∧ server g' !! fn c = Some info'
    ∧ limiter info' = (user_allows now uuid (limiter info)).2
    ∧ _vm g' = Some vm'.
Proof.
  intros Hon Hinfo Hvm Htext. unfold invoke, registeredFunction.
  rewrite Hon. simpl. rewrite Hinfo.
  destruct (user_allows now uuid (limiter info)) as [allowed limiter'].
  destruct allowed; simpl.
  - unfold run. rewrite Htext. simpl. rewrite Hvm.
    destruct (vm_run _ vm) as [[[|stack]|] vm'] eqn:Hrun; eexists _, _, _, _, _;
      (split; [done|]); simpl; rewrite lookup_insert_eq;
      (split; [done|]); (split; [|done]); try done.
    intros Hnever. destruct (Hnever (call_text uuid (fn c) text) vm). by rewrite Hrun.
  - eexists _, _, _, _, _. split; [done|]. simpl. rewrite lookup_insert_eq. done.
Qed.

Lemma invoke_all_in_window {V : Type} (vm_run : string → V → option thrown * V)
    (uuid key : string) (config : rpcConfig) (t0 : Z) (calls : list (Z * rpc_call)) :
  t0 ≠ 0%Z →
  Forall (in_window_call key t0) calls →
  ∀ (k : nat) (g : VMGlobal V) (info : rpcInfo) (vm : V),
    server g !! key = Some info → _vm g = Some vm →
    user_config (limiter info) = config →
    clients (limiter info) !! uuid
    = Some {| config := config; last := Some t0; calls := 1 + Z.of_nat k |} →
    (λ r, vm_runs r.2) <$> (invoke_all vm_run uuid calls g).1
    = (λ i, if bool_decide (Z.of_nat i + 2 ≤ maxRate config)%Z then 1 else 0)
        <$> seq k (length calls)
    ∧ ((∀ call vm0, (vm_run call vm0).1 ≠ Some ThrownNullish) →
       Forall (λ r, r.1 = Ok ()) (invoke_all vm_run uuid calls g).1).
Proof.
  intros Ht0. induction 1 as [|[now c] calls Hc _ IH]; intros k g info vm Hinfo Hvm Hcfg Hst.
  - by split.
  - destruct Hc as (Hnow & Hon & Hfn & _ & _ & text & Htext). simpl in *. subst key.
    destruct (invoke_registered vm_run now uuid c g info vm text Hon Hinfo Hvm Htext)
      as (res & g' & tr & info' & vm' & Hinv & Hruns & Hres & Hinfo' & Hlim & Hvm').
    rewrite Hinv.
    assert (Hallows : user_allows now uuid (limiter info)
              = (bool_decide (Z.of_nat k + 2 ≤ maxRate config)%Z,
                 {| user_config := config;
                    clients := <[uuid := {| config := config; last := Some t0;
                                            calls := 1 + Z.of_nat (S k) |}]>
                                 (clients (limiter info)) |})).
    { unfold user_allows. rewrite Hst, Hcfg. simpl.
      pose proof (allows_all_inside config t0 [now] k Ht0) as Hone.
      simpl in Hone. destruct (allows now _) as [b l'].
      specialize (Hone ltac:(by repeat constructor)).
      injection Hone as -> ->. do 5 f_equal. lia. }
    rewrite Hallows in Hruns, Hlim. simpl in Hruns, Hlim.
    specialize (IH (S k) g' info' vm' Hinfo' Hvm').
    destruct (invoke_all vm_run uuid calls g') as [rs g2].
    destruct IH as [Hrs Hok].
    + by rewrite Hlim.
    + rewrite Hlim. simpl. by rewrite lookup_insert_eq.
    + simpl in Hok, Hrs. csimpl. split; [by rewrite Hruns, Hrs|].
      intros Hnever. constructor; [by apply Hres|by apply Hok].
Qed.



End RegistryExtras.

(** ** Outbound calls *)

Section OutboundExtras.
Import Codec Wire Text Outbound.

Lemma strip_member (p : string * jsval) :
  (stringify_public p.2 = JSON_stringify (strip_internal p.2)) →
  (if internal_key p.1 then []
   else match stringify_public p.2 with
        | Some t => [Some (json_quote p.1 +:+ ":" +:+ t)]
        | None => []
        end)
  = flat_map (λ q : string * jsval,
                match JSON_stringify q.2 with
                | Some t => [Some (json_quote q.1 +:+ ":" +:+ t)]
                | None => []
                end)
      (if internal_key p.1 then [] else [(p.1, strip_internal p.2)]).
Proof.
  intros Hp. destruct (internal_key p.1); [done|]. simpl. rewrite Hp.
  by rewrite app_nil_r.
Qed.

Lemma stringify_public_strip (v : jsval) :
  stringify_public v = JSON_stringify (strip_internal v).
Proof.
  induction v as [| |b|n|s|f|x y z IHx IHy IHz|l IH|k props IH]
    using jsval_nested_ind; try reflexivity.
  - cbn [stringify_public strip_internal JSON_stringify].
    cbn [fst snd]. change (internal_key "x") with false.
    change (internal_key "y") with false. change (internal_key "z") with false.
    cbn iota. by rewrite IHx, IHy, IHz.
  - cbn [stringify_public strip_internal JSON_stringify].
    assert (Hl : map (λ e, Some (default "null" (stringify_public e))) l
                 = map (λ e, Some (default "null" (JSON_stringify e)))
                     (map strip_internal l)).
    { rewrite map_map. induction IH as [|e l He _ IHl]; [done|].
      cbn [map]. by rewrite He, IHl. }
    by rewrite Hl.
  - cbn [stringify_public strip_internal JSON_stringify].
    match goal with
    | |- Some (_ +:+ join _ ?a +:+ _) = Some (_ +:+ join _ ?b +:+ _) =>
        assert (Hl : a = b); [|by rewrite Hl]
    end.
    induction IH as [|p props Hp _ IHprops]; [done|].
    cbn [flat_map]. rewrite flat_map_app, <- IHprops. f_equal.
    by apply strip_member.
Qed.

Lemma buildMessage_strip (room message : string) (data : jsval) :
  buildMessage room message data
  = message +:+ " "
    +:+ default "undefined"
          (JSON_stringify (strip_internal (if truthy data then data else JObj Plain []))).
Proof. unfold buildMessage. by rewrite stringify_public_strip. Qed.

(** The text [buildMessage] makes of plain data is the message, a blank and
    the plain JSON text of the data without its internal fields: the fields
    whose key starts with an underscore are dropped at every depth, and
    nothing else is. *)
Theorem buildMessage_drops_internal (room message : string) (data : jsval) :
  plain_data data = true →
  buildMessage room message data
  = message +:+ " "
    +:+ default "undefined"
          (JSON_stringify (strip_internal (if truthy data then data else JObj Plain []))).
Proof. intros _. apply buildMessage_strip. Qed.

Lemma buildMessage_drops_internal_witness :
  let data := JObj Plain [("fn", JStr "greet");
                          ("_secret", JNum (Fin 7));
                          ("at", JVec3 (JNum (Fin 1)) (JNum (Fin 2)) (JNum (Fin 3)));
                          ("seen", JArr [JObj Plain [("_id", JNull); ("ok", JBool true)]])] in
  buildMessage "hall" "rpc" data
  = "rpc "
    +:+ default "undefined"
          (JSON_stringify
             (JObj Plain [("fn", JStr "greet");
                          ("at", JVec3 (JNum (Fin 1)) (JNum (Fin 2)) (JNum (Fin 3)));
                          ("seen", JArr [JObj Plain [("ok", JBool true)]])])).
Proof.
  intros data. apply (buildMessage_drops_internal "hall" "rpc" data). reflexivity.
Defined.

Lemma serialize_elements_no_objects (l ws : list jsval) :
  Forall (λ v, ∀ w, RpcTypes_serialize v = Ok w → no_objects w = true) l →
  omapM RpcTypes_serialize l = Ok ws → forallb no_objects ws = true.
Proof.
  intros Hall Hser. apply omapM_ok_Forall2 in Hser.
  induction Hser as [|v w l ws Hv _ IH]; [done|].
  apply Forall_cons in Hall as [Hw Hall]. cbn [forallb].
  rewrite (Hw _ Hv). by apply IH.
Qed.

Lemma args_payload_no_objects (ws : list jsval) :
  forallb no_objects ws = true → no_objects (args_payload ws) = true.
Proof. by destruct ws. Qed.

Lemma serialize_no_objects (v w : jsval) :
  RpcTypes_serialize v = Ok w → no_objects w = true.
Proof.
  revert w.
  induction v as [| |b|n|s|f|x y z IHx IHy IHz|l IH|k props IH]
    using jsval_nested_ind; intros w.
  - by intros [= <-].
  - by intros [= <-].
  - simpl. unfold nameFor. simpl. destruct b; by intros [= <-].
  - simpl. unfold nameFor. destruct (truthy (JNum n)); by intros [= <-].
  - simpl. unfold nameFor. destruct (truthy (JStr s)); by intros [= <-].
  - by intros [= <-].
  - change (RpcTypes_serialize (JVec3 x y z))
      with (ws ←! omapM RpcTypes_serialize [x; y; z];
            Ok (JArr [JStr "v3"; args_payload ws])).
    destruct (omapM RpcTypes_serialize [x; y; z]) as [ws|] eqn:Hws; [|done].
    intros [= <-].
    apply serialize_elements_no_objects in Hws; [|by repeat constructor].
    cbn [no_objects forallb]. by rewrite (args_payload_no_objects ws Hws).
  - simpl. destruct (omapM RpcTypes_serialize l) as [ws|] eqn:Hws; [|done].
    intros [= <-]. apply serialize_elements_no_objects in Hws; [|done].
    cbn [no_objects forallb]. by rewrite (args_payload_no_objects ws Hws).
  - simpl. rewrite omapM_snd_eq.
    destruct (omapM RpcTypes_serialize props.*2) as [vs|] eqn:Hvs; [|done].
    intros [= <-]. apply serialize_elements_no_objects in Hvs; [|by apply Forall_fmap].
    cbn [no_objects forallb]. rewrite (args_payload_no_objects vs Hvs).
    rewrite args_payload_no_objects; [done|].
    clear. induction props as [|p props IHp]; [done|]. exact IHp.
Qed.

Lemma strip_no_objects (w : jsval) : no_objects w = true → strip_internal w = w.
Proof.
  induction w as [| |b|n|s|f|x y z _ _ _|l IH|k props _]
    using jsval_nested_ind; try done.
  cbn [no_objects strip_internal]. intros Hl. f_equal.
  induction IH as [|e l He _ IHl]; [done|].
  cbn [forallb] in Hl. apply andb_prop in Hl as [He' Hl].
  cbn [map]. by rewrite (He He'), (IHl Hl).
Qed.

(** What a [VMClients.run] that returns has done: it has put the arguments
    in their wire form, which reads back as the arguments when these are
    representable, into a call addressed to ['clients'], and has handed
    the room ['rpc '] followed by the plain JSON text of that call, from
    which the replacer of [buildMessage] has nothing to drop. *)
Theorem clients_run_outbound (publisher : bool) (room fnName : string)
    (args : list jsval) (call : jsval) (sink : sink_event) :
  VMClients_run publisher room fnName args = Ok (call, sink) →
  let text := "rpc " +:+ default "undefined" (JSON_stringify call) in
  ∃ wire,
    RpcArguments_serialize [JArr args] = Ok wire
    ∧ call = JObj Plain [("fn", JStr fnName); ("on", JStr "clients"); ("args", wire)]
    ∧ (forallb representable args = true → RpcArguments_read wire = Ok args)
    ∧ sink = (if publisher then PublisherWrite room text else PublisherMissing text).
Proof.
  unfold VMClients_run.
  destruct (RpcArguments_serialize [JArr args]) as [wire|] eqn:Hwire; [|done].
  intros [= <- <-]. exists wire. split; [done|]. split; [done|]. split.
  - intros Hrep. pose proof (representable_args_roundtrip args Hrep) as Hrt.
    by rewrite Hwire in Hrt.
  - unfold broadcast. rewrite buildMessage_strip.
    cbn [truthy client_call strip_internal flat_map].
    cbn [internal_key fst snd app]. simpl internal_key.
    assert (Hno : no_objects wire = true).
    { rewrite RpcArguments_serialize_array in Hwire.
      destruct (omapM RpcTypes_serialize args) as [ws|] eqn:Hws; [|done].
      injection Hwire as <-. apply args_payload_no_objects.
      apply (serialize_elements_no_objects args); [|done].
      apply Forall_forall. intros v _ w. apply serialize_no_objects. }
    by rewrite (strip_no_objects wire Hno).
Qed.

Lemma clients_run_outbound_witness :
  let args := [JStr "Ada"; JObj Plain [("_seat", JNum (Fin 3))]] in
  let wire := JArr [JStr "Ada";
                    JArr [JStr "o"; JArr [JStr "_seat"]; JArr [JNum (Fin 3)]]] in
  let call := JObj Plain [("fn", JStr "greet"); ("on", JStr "clients"); ("args", wire)] in
  let text := "rpc " +:+ default "undefined" (JSON_stringify call) in
  ∃ wire',
    RpcArguments_serialize [JArr args] = Ok wire'
    ∧ call = JObj Plain [("fn", JStr "greet"); ("on", JStr "clients"); ("args", wire')]
    ∧ (forallb representable args = true → RpcArguments_read wire' = Ok args)
    ∧ PublisherWrite "hall" text
      = (if true then PublisherWrite "hall" text else PublisherMissing text).
Proof.
  intros args wire call text.
  apply (clients_run_outbound true "hall" "greet" args call (PublisherWrite "hall" text)).
  reflexivity.
Defined.

End OutboundExtras.

(** ** More on the virtual document *)

Section DomExtras.
Import Dom DomMore.

(** Every [VMDocument] lands in one slot of [DocumentTo$]: the table is
    indexed like a plain object, so the document constructed last answers
    [getDocument$] for every document, the earlier ones included. *)
Theorem documents_share_one_slot {cheerio : Type} (load : string → cheerio)
    (d1 d2 : nat) (iml1 iml2 : string) (table : gmap string cheerio) :
  let table' := VMDocument_new cheerio load d2 iml2
                  (VMDocument_new cheerio load d1 iml1 table) in
  getDocument cheerio d1 table' = Some (load iml2)
  ∧ getDocument cheerio d2 table' = Some (load iml2).
Proof.
  unfold getDocument, VMDocument_new, document_key. simpl.
  by rewrite lookup_insert_eq.
Qed.

Lemma parent_of_append (e c : node) (ns : gmap node domnode) (d : domnode) :
  ns !! c = Some d →
  cheerio_append e c ns !! c ≫= parentNode = Some e.
Proof.
  intros Hc. unfold cheerio_append.
  destruct (decide (e = c)) as [->|Hne].
  - rewrite lookup_alter_eq, lookup_alter_eq, Hc. done.
  - rewrite lookup_alter_ne, lookup_alter_eq, Hc by done. done.
Qed.

(** A successful [appendChild] makes the element the parent of the child's
    node and the node the last child of the element, leaves every wrapper
    as it was, and thereby makes any further [appendChild] of the same
    child raise. *)
Theorem appendChild_then (e e2 : node) (child : wrapper) (c : node) (h h' : heap)
    (d de : domnode) :
  ElementToCheerio h !! child = Some c →
  nodes h !! c = Some d →
  nodes h !! e = Some de →
  e ≠ c →
  appendChild e child h = (Ok (), h') →
  parent_of h' c = Some e
  ∧ children_of h' e = children_of h e ++ [c]
  ∧ vmElement h' = vmElement h
  ∧ ElementToCheerio h' = ElementToCheerio h
  ∧ appendChild e2 child h' = (Throw (AlreadyHasParent child), h').
Proof.
  intros Hchild Hc He Hne. unfold appendChild. rewrite Hchild.
  destruct (parent_of h c) as [p|] eqn:Hp; [done|].
  intros [= <-]. simpl.
  assert (Hparent : parent_of {| nodes := cheerio_append e c (nodes h);
                                 vmElement := vmElement h;
                                 ElementToCheerio := ElementToCheerio h;
                                 next_wrapper := next_wrapper h |} c = Some e).
  { unfold parent_of. simpl. by apply (parent_of_append e c (nodes h) d). }
  split; [exact Hparent|]. split; [|split; [done|split; [done|]]].
  - unfold children_of, cheerio_append. simpl.
    rewrite lookup_alter_eq, lookup_alter_ne, He by done. done.
  - rewrite Hchild, Hparent. done.
Qed.

Lemma appendChild_then_witness :
  let h := (VMElement_from (Some 2)
              {| nodes := <[2 := {| tagName := "mesh"; parentNode := None;
                                    childNodes := [] |}]> (nodes Samples.hall_and_door);
                 vmElement := ∅; ElementToCheerio := ∅; next_wrapper := 0 |}).2 in
  let h' := (appendChild 0 0 h).2 in
  parent_of h' 2 = Some 0
  ∧ children_of h' 0 = children_of h 0 ++ [2]
  ∧ vmElement h' = vmElement h
  ∧ ElementToCheerio h' = ElementToCheerio h
  ∧ appendChild 1 0 h' = (Throw (AlreadyHasParent 0), h').
Proof.
  intros h h'.
  apply (appendChild_then 0 1 0 2 h h'
           {| tagName := "mesh"; parentNode := None; childNodes := [] |}
           {| tagName := "room"; parentNode := None; childNodes := [1] |});
    [reflexivity | reflexivity | reflexivity | discriminate | reflexivity].
Defined.

Lemma index_of_None (c : node) (kids : list node) :
  index_of c kids = None ↔ c ∉ kids.
Proof.
  induction kids as [|k kids IH]; simpl.
  - split; [intros _; apply not_elem_of_nil|done].
  - destruct (Nat.eqb_spec k c) as [->|Hne].
    + split; [done|]. intros Hc. destruct Hc. left.
    + rewrite not_elem_of_cons. destruct (index_of c kids); simpl.
      * split; [done|]. intros [_ Hc]. by apply IH in Hc.
      * split; [|done]. intros _. split; [done|]. by apply IH.
Qed.

(** [removeChild] changes nothing when the node is not among the children
    of the element; when it is, the node leaves these children and has no
    parent any more, so that an [appendChild] of it goes through again. *)
Theorem removeChild_then (e e2 : node) (child : wrapper) (c : node) (h : heap) :
  ElementToCheerio h !! child = Some c →
  (c ∉ children_of h e → removeChild e child h = Some h)
  ∧ (c ∈ children_of h e → parent_of h c = Some e →
     ∃ h', removeChild e child h = Some h'
           ∧ parent_of h' c = None
           ∧ (c ∉ children_of h' e)
           ∧ vmElement h' = vmElement h
           ∧ fst (appendChild e2 child h') = Ok ()).
Proof.
  intros Hchild. unfold removeChild. rewrite Hchild. split.
  - intros Hc. apply index_of_None in Hc. by rewrite Hc.
  - intros Hc Hparent.
    destruct (index_of c (children_of h e)) as [i|] eqn:Hi;
      [|by apply index_of_None in Hi].
    eexists. split; [done|].
    assert (Hc' : ∃ d, nodes h !! c = Some d).
    { unfold parent_of in Hparent. destruct (nodes h !! c); [by eexists|done]. }
    destruct Hc' as [d Hd].
    assert (He : ∃ de, nodes h !! e = Some de).
    { unfold children_of in Hc. destruct (nodes h !! e); [by eexists|].
      simpl in Hc. by apply not_elem_of_nil in Hc. }
    destruct He as [de Hde].
    assert (Horphan : parent_of {| nodes := cheerio_remove c (nodes h);
                                   vmElement := vmElement h;
                                   ElementToCheerio := ElementToCheerio h;
                                   next_wrapper := next_wrapper h |} c = None).
    { unfold parent_of, cheerio_remove. simpl.
      unfold parent_of in Hparent. rewrite Hparent.
      rewrite lookup_alter_eq.
      destruct (decide (e = c)) as [->|Hne].
      - by rewrite lookup_alter_eq, Hd.
      - by rewrite lookup_alter_ne, Hd. }
    split; [exact Horphan|]. split; [|split; [done|]].
    + unfold children_of, cheerio_remove. simpl.
      unfold parent_of in Hparent. rewrite Hparent.
      destruct (decide (e = c)) as [->|Hne].
      * rewrite lookup_alter_eq, lookup_alter_eq, Hd. simpl.
        intros Hin. apply list_elem_of_In, filter_In in Hin as [_ Hin].
        by rewrite Nat.eqb_refl in Hin.
      * rewrite lookup_alter_ne, lookup_alter_eq, Hde by done. simpl.
        intros Hin. apply list_elem_of_In, filter_In in Hin as [_ Hin].
        by rewrite Nat.eqb_refl in Hin.
    + unfold appendChild. simpl. by rewrite Hchild, Horphan.
Qed.

Lemma removeChild_then_witness :
  let h := (getElementById Samples.by_id "door" Samples.hall_and_door).2 in
  (1 ∉ children_of h 1 → removeChild 1 0 h = Some h)
  ∧ (1 ∈ children_of h 0 → parent_of h 1 = Some 0 →
     ∃ h', removeChild 0 0 h = Some h'
           ∧ parent_of h' 1 = None
           ∧ (1 ∉ children_of h' 0)
           ∧ vmElement h' = vmElement h
           ∧ fst (appendChild 0 0 h') = Ok ()).
Proof.
  intros h. split.
  - apply (proj1 (removeChild_then 1 0 0 1 h eq_refl)).
  - apply (proj2 (removeChild_then 0 0 0 1 h eq_refl)).
Defined.

Lemma from_linked (h : heap) (el : option node) :
  heap_wf h → heap_linked h → heap_linked (VMElement_from el h).2.
Proof.
  intros [Hold _] Hlinked. destruct el as [k|]; [|done]. unfold VMElement_from.
  destruct (vmElement h !! k) as [w'|] eqn:Hk; [done|].
  intros n w. simpl. intros Hn.
  apply lookup_insert_Some in Hn as [[<- <-]|[Hkn Hn]].
  - apply lookup_insert_eq.
  - rewrite lookup_insert_ne; [by apply Hlinked|].
    intros <-. apply Hold in Hn. lia.
Qed.

(** Wrappers and nodes correspond one to one: in a well-formed store the
    wrapper [VMElement.from] gives for a node is found in
    [ElementToCheerio] under that node, whatever lookups follow, so
    [appendChild] and [removeChild] resolve it to the node it came from;
    and no other node ever gets the same wrapper. *)
Theorem wrapper_node_bijection (h h1 h2 : heap) (n : node) (w : wrapper)
    (els : list (option node)) :
  heap_wf h → heap_linked h →
  VMElement_from (Some n) h = (Some w, h1) →
  h2 = foldl (λ h el, (VMElement_from el h).2) h1 els →
  ElementToCheerio h2 !! w = Some n
  ∧ (∀ m h3, VMElement_from (Some m) h2 = (Some w, h3) → m = n)
  ∧ heap_wf h2 ∧ heap_linked h2.
Proof.
  intros Hwf Hlinked Hfrom ->.
  assert (Hwf1 : heap_wf h1).
  { pose proof (from_wf h (Some n) Hwf) as H1. by rewrite Hfrom in H1. }
  assert (Hlinked1 : heap_linked h1).
  { pose proof (from_linked h (Some n) Hwf Hlinked) as H1. by rewrite Hfrom in H1. }
  destruct (from_sets _ _ _ _ Hfrom) as (w1 & [= <-] & Hw1).
  clear Hfrom Hwf Hlinked.
  revert h1 Hwf1 Hlinked1 Hw1. induction els as [|el els IH]; intros h1 Hwf1 Hlinked1 Hw1.
  - cbn [foldl]. split; [by apply Hlinked1|]. split; [|done].
    intros m h3 Hm. destruct (from_sets _ _ _ _ Hm) as (w2 & [= <-] & Hw2).
    pose proof (from_wf h1 (Some m) Hwf1) as Hwf3. rewrite Hm in Hwf3.
    pose proof (from_preserves h1 (Some m) n w Hw1) as Hp. rewrite Hm in Hp.
    by apply (proj2 Hwf3 m n w).
  - cbn [foldl]. apply IH.
    + by apply from_wf.
    + by apply from_linked.
    + by apply from_preserves.
Qed.

Lemma wrapper_node_bijection_witness :
  let h := Samples.hall_and_door in
  let h2 := foldl (λ h el, (VMElement_from el h).2) (VMElement_from (Some 1) h).2
              [Some 0; None; Some 1] in
  ElementToCheerio h2 !! 0 = Some 1
  ∧ (∀ m h3, VMElement_from (Some m) h2 = (Some 0, h3) → m = 1)
  ∧ heap_wf h2 ∧ heap_linked h2.
Proof.
  intros h h2.
  apply (wrapper_node_bijection h (VMElement_from (Some 1) h).2 h2 1 0
           [Some 0; None; Some 1]).
  - split; intros n w; vm_compute; discriminate.
  - intros n w. vm_compute. discriminate.
  - reflexivity.
  - reflexivity.
Defined.

End DomExtras.

(** ** Session messages *)

Section SessionExtras.
Import Client Session PlainObject.

(** A message touches one participant of one room: every other
    participant, in that room or another, is after the message what it was
    before. *)
Theorem message_touches_one_participant (m : message)
    (world world' : gmap string (gmap string MinimalClient))
    (events : list room_event) (room who : string) :
  roomStateMessage m world = Handled world' events →
  (room, who) ≠ (roomId m, uuid m) →
  participant world' room who = participant world room who.
Proof.
  unfold roomStateMessage, participant. intros Hm Hne.
  assert (Hother : ∀ states states' : gmap string MinimalClient,
            world !! roomId m = Some states →
            (∀ u, u ≠ uuid m → states' !! u = states !! u) →
            (<[roomId m := states']> world !! room ≫= λ s, s !! who)
            = (world !! room ≫= λ s, s !! who)).
  { intros states states' Hstates Hsame.
    destruct (decide (room = roomId m)) as [->|Hroom].
    - rewrite lookup_insert_eq, Hstates. simpl. apply Hsame.
      intros ->. by apply Hne.
    - by rewrite lookup_insert_ne. }
  destruct (String.eqb (type m) "join").
  { destruct (world !! roomId m) as [states|] eqn:Hstates; [|done].
    destruct (String.eqb (uuid m) "__proto__"); [done|].
    injection Hm as <- _. apply (Hother states); [done|].
    intros u Hu. by rewrite lookup_insert_ne. }
  destruct (String.eqb (type m) "update").
  { destruct (world !! roomId m) as [states|] eqn:Hstates; [|done].
    destruct (states !! uuid m) as [current|].
    - injection Hm as <- _. apply (Hother states); [done|].
      intros u Hu. by rewrite lookup_insert_ne.
    - destruct (inherited_name (uuid m)); [done|]. by injection Hm as <- _. }
  destruct (String.eqb (type m) "leave").
  { destruct (world !! roomId m) as [states|] eqn:Hstates; [|done].
    injection Hm as <- _. apply (Hother states); [done|].
    intros u Hu. by rewrite lookup_delete_ne. }
  by injection Hm as <- _.
Qed.

Lemma message_touches_one_participant_witness :
  let world : gmap string (gmap string MinimalClient) :=
    {[ "hall" := {[ "u1" := Samples.walker; "u2" := MinimalClient_new "u2" ]} ]} in
  let m := {| roomId := "hall"; uuid := "u1"; type := "leave";
              position := Samples.move_to 0 0 0 |} in
  participant (<[ "hall" := delete "u1" {[ "u1" := Samples.walker;
                                             "u2" := MinimalClient_new "u2" ]} ]> world)
    "hall" "u2"
  = participant world "hall" "u2".
Proof.
  intros world m.
  apply (message_touches_one_participant m world _ [Leave] "hall" "u2");
    [reflexivity | discriminate].
Defined.

(** The life of a participant in a room the world holds, under an identity
    a plain object does not inherit: a join puts a fresh client at the
    origin under the identity, replacing any client already there; an
    update applies [updateState] to the client there and does nothing for
    an identity that has not joined; a leave removes the client, so that a
    later update does nothing; a message of any other type changes
    nothing. *)
Theorem participant_lifecycle (world : gmap string (gmap string MinimalClient))
    (states : gmap string MinimalClient) (room who : string) (pos : update) :
  world !! room = Some states →
  inherited_name who = false →
  let msg t := {| roomId := room; uuid := who; type := t; position := pos |} in
  (∃ world', roomStateMessage (msg "join") world
             = Handled world' [Join (MinimalClient_new who)]
             ∧ participant world' room who = Some (MinimalClient_new who))
  ∧ (∀ current, states !! who = Some current →
       ∃ world', roomStateMessage (msg "update") world = Handled world' []
                 ∧ participant world' room who = Some (updateState pos current).1)
  ∧ (states !! who = None → roomStateMessage (msg "update") world = Handled world [])
  ∧ (∃ world', roomStateMessage (msg "leave") world = Handled world' [Leave]
               ∧ participant world' room who = None
               ∧ roomStateMessage (msg "update") world' = Handled world' [])
  ∧ (∀ t, t ≠ "join" → t ≠ "update" → t ≠ "leave" →
          roomStateMessage (msg t) world = Handled world []).
Proof.
  intros Hroom Hwho msg. subst msg.
  assert (Hproto : String.eqb who "__proto__" = false).
  { apply String.eqb_neq. intros ->. done. }
  unfold roomStateMessage, participant. simpl.
  rewrite Hroom, Hproto, Hwho. split; [|split; [|split; [|split]]].
  - eexists. split; [done|]. rewrite lookup_insert_eq. simpl.
    by rewrite lookup_insert_eq.
  - intros current ->. eexists. split; [done|]. rewrite lookup_insert_eq. simpl.
    by rewrite lookup_insert_eq.
  - by intros ->.
  - eexists. split; [done|]. rewrite !lookup_insert_eq. simpl.
    by rewrite lookup_delete_eq.
  - intros t Hj Hu Hl. apply String.eqb_neq in Hj, Hu, Hl. by rewrite Hj, Hu, Hl.
Qed.

Lemma participant_lifecycle_witness :
  let world : gmap string (gmap string MinimalClient) :=
    {[ "hall" := {[ "u1" := (updateState (Samples.move_to 1 2 3) Samples.walker).1 ]} ]} in
  let states : gmap string MinimalClient :=
    {[ "u1" := (updateState (Samples.move_to 1 2 3) Samples.walker).1 ]} in
  let msg t := {| roomId := "hall"; uuid := "u1"; type := t;
                  position := Samples.move_to 4 5 6 |} in
  (∃ world', roomStateMessage (msg "join") world
             = Handled world' [Join (MinimalClient_new "u1")]
             ∧ participant world' "hall" "u1" = Some (MinimalClient_new "u1"))
  ∧ (∀ current, states !! "u1" = Some current →
       ∃ world', roomStateMessage (msg "update") world = Handled world' []
                 ∧ participant world' "hall" "u1"
                   = Some (updateState (Samples.move_to 4 5 6) current).1)
  ∧ (states !! "u1" = None → roomStateMessage (msg "update") world = Handled world [])
  ∧ (∃ world', roomStateMessage (msg "leave") world = Handled world' [Leave]
               ∧ participant world' "hall" "u1" = None
               ∧ roomStateMessage (msg "update") world' = Handled world' [])
  ∧ (∀ t, t ≠ "join" → t ≠ "update" → t ≠ "leave" →
          roomStateMessage (msg t) world = Handled world []).
Proof.
  intros world states.
  apply (participant_lifecycle world states "hall" "u1" (Samples.move_to 4 5 6));
    reflexivity.
Defined.

End SessionExtras.

(** ** Decode failures, untouched characters, limiter growth *)

Section FurtherExtras.
Import Codec Wire Limiter Text Rpc Registry PlainObject.

Lemma omapM_first_failure {A B} (f : A → outcome B) (before after : list A)
    (x : A) (ws : list B) (e : jserror) :
  omapM f before = Ok ws → f x = Throw e →
  omapM f (before ++ x :: after) = Throw e.
Proof.
  revert ws. induction before as [|a before IH]; intros ws; csimpl.
  - intros _ ->. done.
  - destruct (f a) as [b|]; [|done]. csimpl.
    destruct (omapM f before) as [bs|] eqn:Hbs; [|done].
    intros _ Hx. by rewrite (IH bs eq_refl Hx).
Qed.

(** Decode failures.  After arguments that decode, the first one that
    does not decides the outcome: an array under a tag that is none of
    ["a"], ["o"], ["v3"] raises the error that names the tag; an empty
    array raises the one that names [undefined]; and a known tag whose
    payload is truthy without being an array or an object, and so has no
    [map], raises a [TypeError]. *)
Theorem read_failures (before after decoded : list jsval) :
  omapM read_rawArg before = Ok decoded →
  (∀ tag payload,
     is_tag tag "a" = false → is_tag tag "o" = false → is_tag tag "v3" = false →
     RpcArguments_read (JArr (before ++ JArr (tag :: payload) :: after))
     = Throw (UnableToRead tag))
  ∧ RpcArguments_read (JArr (before ++ JArr [] :: after))
    = Throw (UnableToRead JUndefined)
  ∧ (∀ t p rest,
       t = "a" ∨ t = "o" ∨ t = "v3" → truthy p = true →
       (∀ l, p ≠ JArr l) → (∀ kind props, p ≠ JObj kind props) →
       RpcArguments_read (JArr (before ++ JArr (JStr t :: p :: rest) :: after))
       = Throw (TypeError "serializedArgs.map is not a function")).
Proof.
  intros Hbefore. unfold RpcArguments_read. simpl. split; [|split].
  - intros tag payload Ha Ho Hv. apply (omapM_first_failure _ _ _ _ decoded); [done|].
    rewrite read_rawArg_eq. unfold RpcTypes_read.
    change (idx (tag :: payload) 0) with tag. by rewrite Ha, Ho, Hv.
  - by apply (omapM_first_failure _ _ _ _ decoded).
  - intros t p rest Ht Hp Harr _. apply (omapM_first_failure _ _ _ _ decoded); [done|].
    rewrite read_rawArg_eq. unfold RpcTypes_read, RpcArguments_read.
    change (idx (JStr t :: p :: rest) 0) with (JStr t).
    change (idx (tail (JStr t :: p :: rest)) 0) with p.
    rewrite Hp. simpl.
    destruct Ht as [-> | [-> | ->]]; simpl; destruct p; try done; by destruct (Harr elems).
Qed.

Lemma read_failures_witness :
  (∀ tag payload,
     is_tag tag "a" = false → is_tag tag "o" = false → is_tag tag "v3" = false →
     RpcArguments_read (JArr ([JStr "Ada"; JArr [JStr "a"; JNull]]
                              ++ JArr (tag :: payload) :: [JNum (Fin 1)]))
     = Throw (UnableToRead tag))
  ∧ RpcArguments_read (JArr ([JStr "Ada"; JArr [JStr "a"; JNull]]
                             ++ JArr [] :: [JNum (Fin 1)]))
    = Throw (UnableToRead JUndefined)
  ∧ (∀ t p rest,
       t = "a" ∨ t = "o" ∨ t = "v3" → truthy p = true →
       (∀ l, p ≠ JArr l) → (∀ kind props, p ≠ JObj kind props) →
       RpcArguments_read (JArr ([JStr "Ada"; JArr [JStr "a"; JNull]]
                                ++ JArr (JStr t :: p :: rest) :: [JNum (Fin 1)]))
       = Throw (TypeError "serializedArgs.map is not a function")).
Proof.
  apply (read_failures [JStr "Ada"; JArr [JStr "a"; JNull]] [JNum (Fin 1)]
           [JStr "Ada"; JArr []]).
  reflexivity.
Defined.

Lemma replace_first_no_quote (s : string) :
  count_char "'" s = 0 → replace_first quote backslash_quote s = s.
Proof.
  induction s as [|x s IH]; [done|]. intros Hs. simpl in Hs.
  destruct (Ascii.eqb_spec x "'") as [->|Hx]; [done|].
  cbn [replace_first String.prefix quote].
  destruct (ascii_dec "'" x) as [<-|_]; [done|]. fold quote. by rewrite IH.
Qed.

(** The single quote is the only character the rendering ever touches: a
    string argument without one is put between single quotes as it is,
    backslashes and line breaks included. *)
Theorem readArgsToString_leaves_other_characters (s : string) :
  count_char "'" s = 0 →
  readArgsToString (JArr [JStr s]) = Ok (quote +:+ s +:+ quote).
Proof.
  intros Hs. rewrite readArgsToString_one_string. by rewrite replace_first_no_quote.
Qed.

Lemma readArgsToString_leaves_other_characters_witness :
  readArgsToString (JArr [JStr (String "\" EmptyString)])
  = Ok (quote +:+ String "\" EmptyString +:+ quote).
Proof.
  apply (readArgsToString_leaves_other_characters (String "\" EmptyString)).
  reflexivity.
Defined.

(** A per-user limiter never forgets a caller: after any calls by senders
    whose identity is no inherited name, it holds a limiter for every
    caller it held before and for every sender that has called, and for no
    one else. *)
Theorem limiter_keeps_every_caller (calls : list (string * Z)) (p : PerUserRateLimiter) :
  Forall (λ c, inherited_name c.1 = false) calls →
  dom (clients (callers_all calls p)) = dom (clients p) ∪ list_to_set calls.*1.
Proof.
  intros _. revert p. induction calls as [|[uuid now] calls IH]; intros p; csimpl.
  - set_solver.
  - rewrite IH. unfold user_allows. destruct (allows now _) as [b l']. simpl.
    rewrite dom_insert_L. set_solver.
Qed.

Lemma limiter_keeps_every_caller_witness :
  let calls := [("a", 5%Z); ("b", 6%Z); ("a", 7%Z)] in
  dom (clients (callers_all calls (PerUserRateLimiter_new default_config)))
  = dom (clients (PerUserRateLimiter_new default_config)) ∪ list_to_set calls.*1.
Proof.
  intros calls.
  apply (limiter_keeps_every_caller calls (PerUserRateLimiter_new default_config)).
  repeat constructor.
Defined.

End FurtherExtras.
